(** * A bounded worker pool: model of internal/worker_pool/worker_pool.go

    The pool is a concurrent object: N worker goroutines run [process],
    callers invoke [Submit] and [Stop], and the parent context may be
    cancelled from outside.  The model is an interleaving semantics: the
    state of the pool is a record holding the fields of the Go struct, the
    contents of the channel, the wait-group counter, and the control point of
    every goroutine; one [step] executes one atomic action of one goroutine,
    and a schedule (a list of labels) selects who moves next and how every
    [select] with several ready cases is resolved.

    Tasks and the hook are opaque [func()] values.  A task that has been
    taken by a worker returns in one action of that worker, which a schedule
    may delay for as long as it likes; a task that panics, or that calls
    back into the pool, is outside the model. *)

From Stdlib Require Import ZArith Lia.
From stdpp Require Import base list strings.

(** ** Data *)

(** [ErrPoolStopped] and [ErrQueueFull]; the Go [error] value [nil] is [None]. *)
Inductive Err := ErrPoolStopped | ErrQueueFull.
Definition error := option Err.

(** Control point of one worker goroutine (the closure spawned by
    [NewWorkerPool], which runs [process] and then the deferred
    [workerWaitGroup.Done()]). *)
Inductive WorkerState (Func : Type) :=
| WSelect                (* runnable, about to evaluate the select of [process] *)
| WParked                (* blocked in that select: no case was ready *)
| WTask (task : Func)    (* received [task], executing [task()] *)
| WHook                  (* [task()] returned, at [if p.afterTaskHook != nil] *)
| WExiting               (* [process] returned, deferred [Done()] pending *)
| WExited.               (* goroutine finished *)
Arguments WSelect {Func}.
Arguments WParked {Func}.
Arguments WTask {Func} task.
Arguments WHook {Func}.
Arguments WExiting {Func}.
Arguments WExited {Func}.

(** Control point of the [Stop] call that holds [mu] exclusively. *)
Inductive StopPC :=
| SCheck     (* [if p.isStopped] *)
| SSet       (* [p.isStopped = true] *)
| SCancel    (* [p.cancel()] *)
| SClose     (* [close(p.taskQueue)] *)
| SWait.     (* [p.workerWaitGroup.Wait()] *)

(** The struct [WorkerPool] together with the run-time state its fields refer
    to.  [taskQueue] is a Go channel: its buffer, its capacity, whether it has
    been closed, and its queue of blocked receivers.  [mu] is only ever
    write-locked by [Stop]; [Submit] holds the read lock for the duration of
    one atomic step (see [step]).  [ctxDone] is the Done channel of the
    context derived by [context.WithCancel]: it is closed by [p.cancel()] or
    when the parent context is cancelled. *)
Record WorkerPool (Func : Type) := mkPool {
  taskQueue : list Func;
  taskQueueCap : nat;
  taskQueueClosed : bool;
  taskQueueRecvq : list nat;
  workerWaitGroup : nat;
  mu : option StopPC;
  afterTaskHook : option Func;
  isStopped : bool;
  ctxDone : bool;
  workers : list (WorkerState Func)
}.
Arguments mkPool {Func}.
Arguments taskQueue {Func}.
Arguments taskQueueCap {Func}.
Arguments taskQueueClosed {Func}.
Arguments taskQueueRecvq {Func}.
Arguments workerWaitGroup {Func}.
Arguments mu {Func}.
Arguments afterTaskHook {Func}.
Arguments isStopped {Func}.
Arguments ctxDone {Func}.
Arguments workers {Func}.

(** What an action of a goroutine does: it completes, it cannot run now
    (the goroutine is blocked), or it panics. *)
Inductive Outcome (A : Type) :=
| Done (a : A)
| Blocked
| Panic.
Arguments Done {A} a.
Arguments Blocked {A}.
Arguments Panic {A}.

(** Observable events. *)
Inductive Event (Func : Type) :=
| EvSubmit (task : Func) (err : error)   (* [Submit(task)] returned [err] *)
| EvStop (err : error)                   (* a [Stop()] call returned [err] *)
| EvTask (task : Func)                   (* [task()] ran to completion *)
| EvHook (hook : Func)                   (* [p.afterTaskHook()] was called *)
| EvExit (w : nat).                      (* worker [w] executed [Done()] *)
Arguments EvSubmit {Func} task err.
Arguments EvStop {Func} err.
Arguments EvTask {Func} task.
Arguments EvHook {Func} hook.
Arguments EvExit {Func} w.

(** Resolution of a select whose two cases are both ready. *)
Inductive Pick := PickDone | PickRecv.

(** Who moves next. *)
Inductive Label (Func : Type) :=
| LSubmit (task : Func)          (* a caller runs [Submit(task)] *)
| LStop                          (* a [Stop()] call takes its next statement *)
| LWorker (w : nat) (pick : Pick)  (* worker [w] takes its next action *)
| LCancelParent.                 (* the parent context is cancelled *)
Arguments LSubmit {Func} task.
Arguments LStop {Func}.
Arguments LWorker {Func} w pick.
Arguments LCancelParent {Func}.

(** The platform.  [make(chan Task, n)] panics ("size out of range") when
    [n] is negative or the buffer of [n] tasks would not fit the address
    space the runtime manages, and the program dies as well when the machine
    cannot provide the memory; [maxChanSize] is the largest [n] for which
    [make] returns a channel.  On 64-bit Linux the buffer may take 2^48
    bytes less the channel header, 8 bytes a task, which puts the limit
    just under 2^45 where memory allows. *)
Class Platform := { maxChanSize : Z }.

(** ** package config: the worker-pool part of the configuration *)

Record WorkerPoolConfig := mkConfig {
  QueueSize : Z;
  NumberOfWorkers : Z
}.

Definition DefaultQueueSize : Z := 100.
Definition DefaultNumberOfWorkers : Z := 10.

(** What [MustLoad] does to the decoded [WorkerPool] section before it
    returns: fields that are not positive get their defaults. *)
Definition MustLoad_defaults (cfg : WorkerPoolConfig) : WorkerPoolConfig :=
  let cfg1 :=
    if (QueueSize cfg <=? 0)%Z
    then mkConfig DefaultQueueSize (NumberOfWorkers cfg)
    else cfg in
  if (NumberOfWorkers cfg1 <=? 0)%Z
  then mkConfig (QueueSize cfg1) DefaultNumberOfWorkers
  else cfg1.

Section pool.
Context {Func : Type} {platform : Platform}.

#[local] Abbreviation Task := Func (only parsing).
#[local] Abbreviation pool := (WorkerPool Func).

(** ** Field updates *)

Definition set_taskQueue (q : list Task) (p : pool) : pool :=
  mkPool q (taskQueueCap p) (taskQueueClosed p) (taskQueueRecvq p)
    (workerWaitGroup p) (mu p) (afterTaskHook p) (isStopped p) (ctxDone p)
    (workers p).

Definition set_taskQueueClosed (b : bool) (p : pool) : pool :=
  mkPool (taskQueue p) (taskQueueCap p) b (taskQueueRecvq p)
    (workerWaitGroup p) (mu p) (afterTaskHook p) (isStopped p) (ctxDone p)
    (workers p).

Definition set_taskQueueRecvq (r : list nat) (p : pool) : pool :=
  mkPool (taskQueue p) (taskQueueCap p) (taskQueueClosed p) r
    (workerWaitGroup p) (mu p) (afterTaskHook p) (isStopped p) (ctxDone p)
    (workers p).

Definition set_workerWaitGroup (n : nat) (p : pool) : pool :=
  mkPool (taskQueue p) (taskQueueCap p) (taskQueueClosed p) (taskQueueRecvq p)
    n (mu p) (afterTaskHook p) (isStopped p) (ctxDone p) (workers p).

Definition set_mu (m : option StopPC) (p : pool) : pool :=
  mkPool (taskQueue p) (taskQueueCap p) (taskQueueClosed p) (taskQueueRecvq p)
    (workerWaitGroup p) m (afterTaskHook p) (isStopped p) (ctxDone p)
    (workers p).

Definition set_isStopped (b : bool) (p : pool) : pool :=
  mkPool (taskQueue p) (taskQueueCap p) (taskQueueClosed p) (taskQueueRecvq p)
    (workerWaitGroup p) (mu p) (afterTaskHook p) b (ctxDone p) (workers p).

Definition set_ctxDone (b : bool) (p : pool) : pool :=
  mkPool (taskQueue p) (taskQueueCap p) (taskQueueClosed p) (taskQueueRecvq p)
    (workerWaitGroup p) (mu p) (afterTaskHook p) (isStopped p) b (workers p).

Definition set_workers (ws : list (WorkerState Func)) (p : pool) : pool :=
  mkPool (taskQueue p) (taskQueueCap p) (taskQueueClosed p) (taskQueueRecvq p)
    (workerWaitGroup p) (mu p) (afterTaskHook p) (isStopped p) (ctxDone p) ws.

Definition set_worker (w : nat) (s : WorkerState Func) (p : pool) : pool :=
  set_workers (<[w := s]> (workers p)) p.

(** ** Channel and context primitives *)

(** Closing a channel (the task queue or the Done channel of the context)
    wakes every goroutine blocked in a select on it; a woken worker has
    committed to the branch that makes [process] return. *)
Definition wake (s : WorkerState Func) : WorkerState Func :=
  match s with
  | WParked => WExiting
  | _ => s
  end.

Definition wake_parked (p : pool) : pool :=
  set_taskQueueRecvq [] (set_workers (wake <$> workers p) p).

(** Result of the non-blocking send [select { case ch <- task: ; default: }]. *)
Inductive SendResult :=
| Sent (p' : pool)
| WouldBlock
| SendPanic.

(** Go's [chansend] with [block = false]: sending on a closed channel
    panics; a blocked receiver, if any, is handed the value directly;
    otherwise the value goes to the buffer when there is room. *)
Definition chansend_nb (task : Task) (p : pool) : SendResult :=
  if taskQueueClosed p then SendPanic
  else match taskQueueRecvq p with
       | w :: r => Sent (set_taskQueueRecvq r (set_worker w (WTask task) p))
       | [] =>
           if length (taskQueue p) <? taskQueueCap p
           then Sent (set_taskQueue (taskQueue p ++ [task]) p)
           else WouldBlock
       end.

(** ** NewWorkerPool *)

(** One iteration of the constructor's loop:
    [wp.workerWaitGroup.Add(1); go func(){ defer Done(); wp.process(ctx) }()]. *)
Definition spawn (p : pool) : pool :=
  set_workers (workers p ++ [WSelect])
    (set_workerWaitGroup (S (workerWaitGroup p)) p).

(** [NewWorkerPool(ctx, numOfWorkers, queueSize, hook)].  [parentDone] says
    whether [ctx] is already cancelled when the pool is built.
    [make(chan Task, queueSize)] panics on a size that is negative or
    beyond what the platform accepts.  The loop
    [for i := 0; i < numOfWorkers; i++] runs [max 0 numOfWorkers] times. *)
Definition NewWorkerPool (parentDone : bool) (numOfWorkers queueSize : Z)
    (hook : option Func) : Outcome pool :=
  if (queueSize <? 0)%Z || (maxChanSize <? queueSize)%Z then Panic
  else Done (Nat.iter (Z.to_nat numOfWorkers) spawn
               (mkPool [] (Z.to_nat queueSize) false [] 0 None hook false
                  parentDone [])).

(** ** process *)

Definition process_return (w : nat) (p : pool) : pool :=
  set_worker w WExiting p.

(** [case task, ok := <-p.taskQueue] when the case is ready. *)
Definition process_recv (w : nat) (p : pool) : pool :=
  match taskQueue p with
  | task :: q => set_worker w (WTask task) (set_taskQueue q p)
  | [] => process_return w p    (* closed and drained: [ok] is false *)
  end.

(** The select of [process]. *)
Definition process_select (w : nat) (pick : Pick) (p : pool) : pool :=
  let recv_ready :=
    match taskQueue p with [] => taskQueueClosed p | _ :: _ => true end in
  match ctxDone p, recv_ready with
  | true, false => process_return w p
  | false, true => process_recv w p
  | true, true =>
      match pick with
      | PickDone => process_return w p
      | PickRecv => process_recv w p
      end
  | false, false =>
      set_taskQueueRecvq (taskQueueRecvq p ++ [w]) (set_worker w WParked p)
  end.

(** One action of worker [w]. *)
Definition process (w : nat) (pick : Pick) (p : pool)
    : Outcome (pool * list (Event Func)) :=
  match workers p !! w with
  | None => Blocked
  | Some WSelect => Done (process_select w pick p, [])
  | Some WParked => Blocked
  | Some (WTask task) => Done (set_worker w WHook p, [EvTask task])
  | Some WHook =>
      match afterTaskHook p with
      | Some hook => Done (set_worker w WSelect p, [EvHook hook])
      | None => Done (set_worker w WSelect p, [])
      end
  | Some WExiting =>
      match workerWaitGroup p with
      | 0 => Panic      (* negative WaitGroup counter *)
      | S n => Done (set_worker w WExited (set_workerWaitGroup n p), [EvExit w])
      end
  | Some WExited => Blocked
  end.

(** ** Submit *)

(** The body of [Submit] between [RLock] and [RUnlock]. *)
Definition Submit (task : Task) (p : pool) : Outcome (error * pool) :=
  if isStopped p then Done (Some ErrPoolStopped, p)
  else match chansend_nb task p with
       | Sent p' => Done (None, p')
       | WouldBlock => Done (Some ErrQueueFull, p)
       | SendPanic => Panic
       end.

(** ** Stop *)

(** The next statement of [Stop].  With [mu] free a call acquires it; the
    holder then walks through the body; [Wait] blocks while the counter of
    the wait group is positive; returning releases [mu]. *)
Definition Stop (p : pool) : Outcome (pool * list (Event Func)) :=
  match mu p with
  | None => Done (set_mu (Some SCheck) p, [])
  | Some SCheck =>
      if isStopped p then Done (set_mu None p, [EvStop None])
      else Done (set_mu (Some SSet) p, [])
  | Some SSet => Done (set_mu (Some SCancel) (set_isStopped true p), [])
  | Some SCancel =>
      Done (set_mu (Some SClose) (wake_parked (set_ctxDone true p)), [])
  | Some SClose =>
      if taskQueueClosed p then Panic      (* close of closed channel *)
      else Done (set_mu (Some SWait) (wake_parked (set_taskQueueClosed true p)),
                 [])
  | Some SWait =>
      match workerWaitGroup p with
      | 0 => Done (set_mu None p, [EvStop None])
      | S _ => Blocked
      end
  end.

(** ** The interleaving semantics *)

(** [Submit] runs between [RLock] and [RUnlock] without blocking, reads
    [isStopped] (written only under the exclusive lock) and performs one
    channel operation, so a call is one atomic action taken when no [Stop]
    holds [mu]; while a [Stop] holds it, [RLock] blocks. *)
Definition step (l : Label Func) (p : pool)
    : Outcome (pool * list (Event Func)) :=
  match l with
  | LSubmit task =>
      match mu p with
      | Some _ => Blocked
      | None =>
          match Submit task p with
          | Done (err, p') => Done (p', [EvSubmit task err])
          | Blocked => Blocked
          | Panic => Panic
          end
      end
  | LStop => Stop p
  | LWorker w pick => process w pick p
  | LCancelParent => Done (wake_parked (set_ctxDone true p), [])
  end.

(** Run a schedule, collecting the events in order. *)
Fixpoint run (ls : list (Label Func)) (p : pool)
    : Outcome (pool * list (Event Func)) :=
  match ls with
  | [] => Done (p, [])
  | l :: ls' =>
      match step l p with
      | Done (p', ev) =>
          match run ls' p' with
          | Done (p'', evs) => Done (p'', ev ++ evs)
          | Blocked => Blocked
          | Panic => Panic
          end
      | Blocked => Blocked
      | Panic => Panic
      end
  end.

(** The states a schedule goes through, the first one included; it stops
    at the first action that cannot be taken. *)
Fixpoint trajectory (ls : list (Label Func)) (p : pool) : list pool :=
  p :: match ls with
       | [] => []
       | l :: ls' =>
           match step l p with
           | Done (p', _) => trajectory ls' p'
           | _ => []
           end
       end.

(** ** Counting workers *)

Definition exited (s : WorkerState Func) : bool :=
  match s with WExited => true | _ => false end.

(** Weighted count over the goroutines. *)
Definition tally (f : WorkerState Func → nat) (ws : list (WorkerState Func))
    : nat :=
  sum_list_with f ws.

(** Workers that have not finished: what the wait group counts. *)
Definition live (ws : list (WorkerState Func)) : nat :=
  tally (λ s, if exited s then 0 else 1) ws.

(** Workers between the return of [task()] and the hook call. *)
Definition hook_pending (ws : list (WorkerState Func)) : nat :=
  tally (λ s, match s with WHook => 1 | _ => 0 end) ws.

(** Tasks held by workers that are executing them. *)
Definition held (s : WorkerState Func) : list Task :=
  match s with WTask task => [task] | _ => [] end.

Definition running (ws : list (WorkerState Func)) : list Task :=
  ws ≫= held.

(** ** Reading a trace *)

Definition accepted_of (e : Event Func) : list Task :=
  match e with EvSubmit task None => [task] | _ => [] end.

Definition ran_of (e : Event Func) : list Task :=
  match e with EvTask task => [task] | _ => [] end.

Definition hook_of (e : Event Func) : list Func :=
  match e with EvHook hook => [hook] | _ => [] end.

Definition stop_of (e : Event Func) : list error :=
  match e with EvStop err => [err] | _ => [] end.

(** Tasks whose [Submit] returned [nil], tasks run to completion, hook
    calls and [Stop] returns, each in the order of the trace. *)
Definition accepted (tr : list (Event Func)) : list Task := tr ≫= accepted_of.
Definition ran (tr : list (Event Func)) : list Task := tr ≫= ran_of.
Definition hooks (tr : list (Event Func)) : list Func := tr ≫= hook_of.
Definition stops (tr : list (Event Func)) : list error := tr ≫= stop_of.

(** ** The invariant of the pool *)

(** What [mu] and the control point of its holder say about the flags. *)
Definition stop_inv (p : pool) : Prop :=
  match mu p with
  | None | Some SCheck =>
      if isStopped p
      then ctxDone p = true ∧ taskQueueClosed p = true ∧ workerWaitGroup p = 0
      else taskQueueClosed p = false
  | Some SSet => isStopped p = false ∧ taskQueueClosed p = false
  | Some SCancel => isStopped p = true ∧ taskQueueClosed p = false
  | Some SClose =>
      isStopped p = true ∧ ctxDone p = true ∧ taskQueueClosed p = false
  | Some SWait =>
      isStopped p = true ∧ ctxDone p = true ∧ taskQueueClosed p = true
  end.

Record Inv (p : pool) : Prop := mkInv {
  inv_cap : length (taskQueue p) ≤ taskQueueCap p;
  inv_recvq : Forall (λ w, workers p !! w = Some WParked) (taskQueueRecvq p);
  inv_nodup : NoDup (taskQueueRecvq p);
  inv_parked : ∀ w, workers p !! w = Some WParked →
    w ∈ taskQueueRecvq p ∧
    taskQueue p = [] ∧ taskQueueClosed p = false ∧ ctxDone p = false;
  inv_wg : workerWaitGroup p = live (workers p);
  inv_stop : stop_inv p
}.

(** ** Properties of a pool and the trace that led to it *)

(** Conservation of tasks: every task whose [Submit] returned [nil] has been
    run, is being run, or sits in the queue -- and nothing else does. *)
Definition conserved (p : WorkerPool Func) (tr : list (Event Func)) : Prop :=
  accepted tr ≡ₚ ran tr ++ running (workers p) ++ taskQueue p.

(** Hook calls: each is a call of the hook of the pool, and with a hook set
    their number lags the number of completed tasks by the workers that
    stand between [task()] and the call. *)
Definition hooked (p : WorkerPool Func) (tr : list (Event Func)) : Prop :=
  Forall (λ h, afterTaskHook p = Some h) (hooks tr) ∧
  (is_Some (afterTaskHook p) →
   length (hooks tr) + hook_pending (workers p) = length (ran tr)).

(** [Stop] returns: always [nil], and once one has returned the flag is set
    and [mu] is free or held by a later call standing at its check. *)
Definition stop_returned (p : WorkerPool Func) (tr : list (Event Func))
    : Prop :=
  Forall (λ err, err = None) (stops tr) ∧
  (stops tr ≠ [] → isStopped p = true ∧ (mu p = None ∨ mu p = Some SCheck)).

(** Stopped, every worker gone, and [mu] free or held by a [Stop] call that
    is about to see the flag. *)
Definition inert (p : WorkerPool Func) : Prop :=
  isStopped p = true ∧ Forall (λ s, s = WExited) (workers p) ∧
  (mu p = None ∨ mu p = Some SCheck).

Definition rejection (e : Event Func) : Prop :=
  e = EvStop None ∨ ∃ task, e = EvSubmit task (Some ErrPoolStopped).

(** Worker exits recorded in a trace. *)
Definition exit_of (e : Event Func) : list nat :=
  match e with EvExit w => [w] | _ => [] end.

Definition exits (tr : list (Event Func)) : list nat := tr ≫= exit_of.

(** Every worker has either exited, once, or is still live. *)
Definition exits_counted (p : WorkerPool Func) (tr : list (Event Func))
    : Prop :=
  length (exits tr) + live (workers p) = length (workers p).

(** ** Schedules used below *)

(** One action of a worker when the context is done and its select takes
    the Done case: control moves one point closer to the end. *)
Definition advance (s : WorkerState Func) : WorkerState Func :=
  match s with
  | WTask _ => WHook
  | WHook => WSelect
  | WSelect => WExiting
  | WExiting => WExited
  | WParked => WParked
  | WExited => WExited
  end.

Definition steps_to_exit (s : WorkerState Func) : nat :=
  match s with
  | WTask _ => 4
  | WHook => 3
  | WSelect => 2
  | WExiting => 1
  | WParked | WExited => 0
  end.

(** The actions that take worker [w], found at control point [s] in a pool
    whose context is done, to its end: the task in hand returns, the hook
    is called, the select takes the Done case, [Done()] is executed. *)
Definition exit_sched (w : nat) (s : WorkerState Func) : list (Label Func) :=
  replicate (steps_to_exit s) (LWorker w PickDone).

(** The same for all workers, one after the other. *)
Definition drain_sched (ws : list (WorkerState Func)) : list (Label Func) :=
  mjoin (imap exit_sched ws).

Definition worker_label (l : Label Func) : Prop :=
  match l with LWorker _ _ => True | _ => False end.

Definition stop_or_worker_label (l : Label Func) : Prop :=
  match l with LWorker _ _ | LStop => True | _ => False end.

(** The pool without its goroutines and their count. *)
Definition frame (p : pool) : pool :=
  set_workerWaitGroup 0 (set_workers [] p).

(** The pool that [main] builds: the configuration goes through
    [MustLoad], the context is [context.Background()], a hook is set. *)
Definition main_pool (cfg : WorkerPoolConfig) (hook : Func)
    : Outcome pool :=
  NewWorkerPool false (NumberOfWorkers (MustLoad_defaults cfg))
    (QueueSize (MustLoad_defaults cfg)) (Some hook).

End pool.

(** ** Scenarios

    Concrete pools with tasks named by numbers, on a 64-bit Linux whose
    channel header takes 104 bytes. *)

Definition linux_amd64 : Platform := {| maxChanSize := 2 ^ 45 - 13 |}.
#[local] Existing Instance linux_amd64.

(** One worker, room for one task, no hook. *)
Definition race_p0 : WorkerPool nat :=
  mkPool [] 1 false [] 1 None None false false [WSelect].

(** Task 7 is submitted; [Stop] is called and runs up to [Wait]; the worker,
    evaluating its select for the first time, finds both cases ready and
    takes the Done case; it exits; [Stop] returns. *)
Definition race_sched : list (Label nat) :=
  [LSubmit 7; LStop; LStop; LStop; LStop; LStop;
   LWorker 0 PickDone; LWorker 0 PickDone; LStop].

Definition race_p : WorkerPool nat :=
  mkPool [7] 1 true [] 0 None None true true [WExited].

Definition race_tr : list (Event nat) :=
  [EvSubmit 7 None; EvExit 0; EvStop None].

(** One worker and an unbuffered queue; the worker has reached its select
    and waits for a task. *)
Definition handoff_p0 : WorkerPool nat :=
  mkPool [] 0 false [] 1 None None false false [WSelect].

Definition handoff_p : WorkerPool nat :=
  mkPool [] 0 false [0] 1 None None false false [WParked].

(** No worker, room for one task. *)
Definition idle_p0 : WorkerPool nat :=
  mkPool [] 1 false [] 0 None None false false [].

(** One worker, room for one task, hook 1.  Task 7 is submitted and taken
    by the worker; while it runs, [Stop] is called and gets to [Wait]. *)
Definition busy_p0 : WorkerPool nat :=
  mkPool [] 1 false [] 1 None (Some 1) false false [WSelect].

Definition busy_sched : list (Label nat) :=
  [LSubmit 7; LWorker 0 PickRecv; LStop; LStop; LStop; LStop; LStop].

Definition busy_p : WorkerPool nat :=
  mkPool [] 1 true [] 1 (Some SWait) (Some 1) true true [WTask 7].

(** The task returns, the hook is called, the worker exits, [Stop]
    returns. *)
Definition busy_rest : list (Label nat) :=
  [LWorker 0 PickDone; LWorker 0 PickDone; LWorker 0 PickDone;
   LWorker 0 PickDone; LStop].

Definition busy_end : WorkerPool nat :=
  mkPool [] 1 true [] 0 None (Some 1) true true [WExited].
(** ** package config: what [MustLoad] returns *)

Module config.

Definition DefaultTimeout : Z := 30.

Record Config := mkConfig {
  WorkerPool : WorkerPoolConfig;
  Timeout : Z;
  Path : string
}.

(** [MustLoad] from the point where the file has been decoded into [cfg]:
    an empty path is fatal ([None]); fields that are not positive get their
    defaults.  Reading the environment and the file and decoding the JSON
    come before and are not modelled. *)
Definition MustLoad (cfg : Config) : option Config :=
  if String.eqb (Path cfg) "" then None
  else
    Some (mkConfig (MustLoad_defaults (WorkerPool cfg))
            (if (Timeout cfg <=? 0)%Z then DefaultTimeout else Timeout cfg)
            (Path cfg)).

End config.

(** ** cmd/main.go: jobs *)

Definition JobType := Z.
Definition TypeFirst : JobType := 1%Z.
Definition TypeSecond : JobType := 2%Z.

Module Job.
Record t := mk {
  JobId : Z;
  JobType : JobType
}.
End Job.

(** Go's [int] and [int64]: 64 bits, two's complement. *)
Definition wrap64 (z : Z) : Z := ((z + 2 ^ 63) `mod` 2 ^ 64 - 2 ^ 63)%Z.

(** The loop of [generateDefaultJobs], [fuel] bounding its iterations:
    [for i := 1; i <= count; i++ { jobs = append(jobs, Job{i, jobType}) }]
    where [jobType] is [TypeSecond] for even [i] and [TypeFirst] otherwise. *)
Fixpoint generate_loop (fuel : nat) (i count : Z) (jobs : list Job.t)
    : list Job.t :=
  match fuel with
  | 0 => jobs
  | S fuel' =>
      if (i <=? count)%Z
      then
        let jobType :=
          if (Z.rem i 2 =? 0)%Z then TypeSecond else TypeFirst in
        generate_loop fuel' (wrap64 (i + 1)) count
          (jobs ++ [Job.mk i jobType])
      else jobs
  end.

(** [generateDefaultJobs(count)]: the loop runs [count] times when [count]
    is positive, not at all otherwise.  ([count] equal to the largest [int]
    would make the counter wrap and the loop run on; below, [count] is
    smaller.) *)
Definition generateDefaultJobs (count : Z) : list Job.t :=
  generate_loop (Z.to_nat count) 1 count [].

Definition Millisecond : Z := 1000000.
Definition Second : Z := 1000000000.

(** The duration, in nanoseconds, for which [processJob] sleeps. *)
Definition processingTime (job : Job.t) : Z :=
  if (Job.JobType job =? TypeFirst)%Z
  then wrap64 (wrap64 (800 + wrap64 (Job.JobId job * 50)) * Millisecond)
  else if (Job.JobType job =? TypeSecond)%Z
  then wrap64 (500 * Millisecond)
  else wrap64 (1 * Second).

(** [processJob(job)]: the time slept and the error returned. *)
Definition processJob (job : Job.t) : Z * option string :=
  (processingTime job, None).

(** One worker, room for one task, hook 1, as [main] builds it from a
    configuration asking for one worker and a queue of one; task 7 has been
    submitted and waits in the queue. *)
Definition queued_p : WorkerPool nat :=
  mkPool [7] 1 false [] 1 None (Some 1) false false [WSelect].

(** ** Further properties of workers *)

Section pool_more.
Context {Func : Type}.

(** A worker that is in its loop. *)
Definition looping (s : WorkerState Func) : Prop :=
  match s with WExiting | WExited => False | _ => True end.

(** The workers whose [Done()] is in the trace have finished, and none is
    there twice. *)
Definition exits_once (p : WorkerPool Func) (tr : list (Event Func)) : Prop :=
  NoDup (exits tr) ∧ ∀ w, w ∈ exits tr → workers p !! w = Some WExited.

End pool_more.

Section facts.
Context {Func : Type} {platform : Platform}.
Implicit Types (p : WorkerPool Func) (ws : list (WorkerState Func))
  (s : WorkerState Func) (w : nat) (tr : list (Event Func)).

Lemma tally_insert (f : WorkerState Func → nat) ws w s s' :
  ws !! w = Some s →
  tally f (<[w := s']> ws) + f s = tally f ws + f s'.
Proof.
  unfold tally. revert w. induction ws as [|a ws IH]; intros [|w] H;
    simplify_eq/=; [lia|].
  specialize (IH _ H). lia.
Qed.

Lemma tally_wake (f : WorkerState Func → nat) ws :
  f WParked = f WExiting → tally f (wake <$> ws) = tally f ws.
Proof.
  intros Hf. unfold tally. induction ws as [|a ws IH]; csimpl; [done|].
  rewrite IH. by destruct a; simpl; rewrite ?Hf.
Qed.

Lemma tally_app (f : WorkerState Func → nat) ws ws' :
  tally f (ws ++ ws') = tally f ws + tally f ws'.
Proof. unfold tally. apply sum_list_with_app. Qed.

Lemma running_insert ws w s s' :
  ws !! w = Some s →
  running (<[w := s']> ws) ++ held s ≡ₚ running ws ++ held s'.
Proof.
  unfold running. revert w. induction ws as [|a ws IH]; intros [|w] H;
    simplify_eq/=.
  - rewrite <-!(assoc_L (++)). rewrite (comm (++) (held s')). 
    rewrite (assoc_L (++)). rewrite (comm (++) (held s)). by rewrite <-!(assoc_L (++)). 
  - rewrite <-!(assoc_L (++)). by rewrite (IH _ H).
Qed.

Lemma running_wake ws : running (wake <$> ws) = running ws.
Proof.
  unfold running. induction ws as [|a ws IH]; csimpl; [done|].
  rewrite IH. by destruct a.
Qed.

Lemma wake_not_parked ws w : (wake <$> ws) !! w ≠ Some WParked.
Proof.
  rewrite list_lookup_fmap. destruct (ws !! w) as [[]|]; simpl; congruence.
Qed.

Lemma live_zero_exited ws : live ws = 0 ↔ Forall (λ s, s = WExited) ws.
Proof.
  unfold live, tally. induction ws as [|a ws IH]; csimpl.
  - split; [constructor|done].
  - rewrite Forall_cons. destruct a; simpl; try (split; [lia|intros [? _]; done]).
    rewrite IH. split; [intros ?; by split|by intros [_ ?]].
Qed.

(** ** Construction *)

Lemma iter_spawn n p :
  Nat.iter n spawn p =
  set_workers (workers p ++ replicate n WSelect)
    (set_workerWaitGroup (workerWaitGroup p + n) p).
Proof.
  induction n as [|n IH]; simpl.
  - destruct p; unfold set_workers, set_workerWaitGroup; simpl.
    by rewrite app_nil_r, Nat.add_0_r.
  - rewrite IH. destruct p; unfold spawn, set_workers, set_workerWaitGroup; simpl.
    rewrite <-(assoc_L (++)), Nat.add_succ_r.
    replace (replicate n WSelect ++ [WSelect])
      with (@WSelect Func :: replicate n WSelect); [done|].
    clear. induction n; simpl; [done|]. by f_equal.
Qed.

Lemma NewWorkerPool_eq parentDone numOfWorkers queueSize hook p :
  NewWorkerPool parentDone numOfWorkers queueSize hook = Done p →
  (0 ≤ queueSize ≤ maxChanSize)%Z ∧
  p = mkPool [] (Z.to_nat queueSize) false [] (Z.to_nat numOfWorkers) None
        hook false parentDone (replicate (Z.to_nat numOfWorkers) WSelect).
Proof.
  unfold NewWorkerPool. destruct (Z.ltb_spec queueSize 0); [done|].
  destruct (Z.ltb_spec maxChanSize queueSize); [done|].
  intros [= <-]. by rewrite iter_spawn.
Qed.

Lemma live_replicate_select n : live (replicate n (@WSelect Func)) = n.
Proof. unfold live, tally. induction n; simpl; [done|]. by f_equal. Qed.

Lemma NewWorkerPool_inv parentDone numOfWorkers queueSize hook p :
  NewWorkerPool parentDone numOfWorkers queueSize hook = Done p → Inv p.
Proof.
  intros [_ ->]%NewWorkerPool_eq. split; simpl.
  - lia.
  - constructor.
  - constructor.
  - intros w [? _]%lookup_replicate. done.
  - by rewrite live_replicate_select.
  - done.
Qed.

(** ** The invariant is preserved *)

Lemma live_insert ws w s s' :
  ws !! w = Some s → exited s = exited s' → live (<[w := s']> ws) = live ws.
Proof.
  intros H E. unfold live.
  pose proof (tally_insert (λ s, if exited s then 0 else 1) ws w s s' H) as T.
  simpl in T. rewrite E in T. lia.
Qed.

Lemma live_insert_exited ws w s :
  ws !! w = Some s → exited s = false →
  S (live (<[w := WExited]> ws)) = live ws.
Proof.
  intros H E. unfold live.
  pose proof (tally_insert (λ s, if exited s then 0 else 1) ws w s WExited H)
    as T.
  simpl in T. rewrite E in T. lia.
Qed.

Lemma live_wake ws : live (wake <$> ws) = live ws.
Proof. by apply tally_wake. Qed.

Lemma recvq_insert ws w s s' (r : list nat) :
  ws !! w = Some s → s ≠ WParked →
  Forall (λ w', ws !! w' = Some WParked) r →
  Forall (λ w', <[w := s']> ws !! w' = Some WParked) r.
Proof.
  intros H Hs HF. eapply Forall_impl; [done|]. intros w' Hw'; simpl in *.
  rewrite list_lookup_insert_ne; [done|]. intros ->. congruence.
Qed.

Lemma parked_insert ws w s' w' :
  s' ≠ WParked → <[w := s']> ws !! w' = Some WParked →
  ws !! w' = Some WParked.
Proof. intros Hs [(_ & ? & _)|[_ ?]]%list_lookup_insert_Some; done. Qed.

(** A worker that is not parked changes its control point, the queue
    possibly loses its head. *)
Lemma Inv_worker p w s s' q :
  Inv p → workers p !! w = Some s → s ≠ WParked → s' ≠ WParked →
  exited s = exited s' →
  (q = taskQueue p ∨ ∃ task, taskQueue p = task :: q) →
  Inv (set_worker w s' (set_taskQueue q p)).
Proof.
  intros [Hcap Hrq Hnd Hpk Hwg Hst] Hw Hs Hs' He Hq. split; simpl.
  - destruct Hq as [->|[t Ht]]; [done|]. rewrite Ht in *. simpl in *. lia.
  - by eapply recvq_insert.
  - done.
  - intros w' Hw'%parked_insert; [|done].
    destruct (Hpk _ Hw') as (? & Hq' & ? & ?).
    destruct Hq as [->|[t Ht]]; [done|congruence].
  - by erewrite live_insert.
  - done.
Qed.

Lemma set_taskQueue_id p : set_taskQueue (taskQueue p) p = p.
Proof. by destruct p. Qed.

Lemma Inv_wake_parked p :
  length (taskQueue p) ≤ taskQueueCap p →
  workerWaitGroup p = live (workers p) →
  stop_inv (wake_parked p) → Inv (wake_parked p).
Proof.
  intros Hcap Hwg ?. split; simpl.
  - done.
  - constructor.
  - constructor.
  - intros w Hw. by apply wake_not_parked in Hw.
  - by rewrite live_wake.
  - done.
Qed.

Lemma process_inv w pick p p' ev :
  Inv p → process w pick p = Done (p', ev) → Inv p'.
Proof.
  intros HI. unfold process.
  destruct (workers p !! w) as [[]|] eqn:Hw; try done.
  - (* the select *)
    intros [= <- <-]. unfold process_select, process_recv, process_return.
    assert (Inv (set_worker w WExiting p)) as Hret.
    { rewrite <-(set_taskQueue_id p). eapply Inv_worker; eauto. }
    assert (∀ task q, taskQueue p = task :: q →
            Inv (set_worker w (WTask task) (set_taskQueue q p))) as Hrecv.
    { intros. eapply Inv_worker; eauto. }
    destruct (ctxDone p) eqn:Hd, (taskQueue p) as [|task q] eqn:Hq,
      (taskQueueClosed p) eqn:Hc, pick; eauto.
    all: destruct HI as [Hcap Hrq Hnd Hpk Hwg Hst]; split; simpl; try done.
    all: try (rewrite Forall_app; split;
      [by eapply recvq_insert|
       apply Forall_singleton, list_lookup_insert_eq; by eapply lookup_lt_Some]).
    all: try (apply NoDup_app; split_and!; [done| |apply NoDup_singleton];
      intros w' Hw' ->%list_elem_of_singleton;
      rewrite Forall_forall in Hrq; specialize (Hrq _ Hw');
      congruence).
    all: try (by erewrite live_insert).
    all: try (intros w' [(<- & _ & _)|[_ Hw']]%list_lookup_insert_Some;
      [|destruct (Hpk _ Hw') as (?&?&?&?)];
      (split_and!; [rewrite elem_of_app, list_elem_of_singleton; tauto
                   |done..])).
  - (* task() returns *)
    intros [= <- <-]. rewrite <-(set_taskQueue_id p). eapply Inv_worker; eauto.
  - (* the hook *)
    destruct (afterTaskHook p); intros [= <- <-];
      rewrite <-(set_taskQueue_id p); eapply Inv_worker; eauto.
  - (* Done() *)
    destruct (workerWaitGroup p) as [|n] eqn:Hn; [done|]. intros [= <- <-].
    destruct HI as [Hcap Hrq Hnd Hpk Hwg Hst]. split; simpl; try done.
    + by eapply recvq_insert.
    + intros w' Hw'%parked_insert; [|done]. eauto.
    + rewrite Hn in Hwg. pose proof (live_insert_exited _ _ _ Hw eq_refl).
      lia.
    + unfold stop_inv in *; simpl in *. rewrite Hn in Hst.
      destruct (mu p) as [[]|], (isStopped p); intuition congruence.
Qed.

Lemma process_no_panic w pick p : Inv p → process w pick p ≠ Panic.
Proof.
  intros HI. unfold process.
  destruct (workers p !! w) as [[]|] eqn:Hw; try done.
  - by destruct (afterTaskHook p).
  - destruct (workerWaitGroup p) as [|n] eqn:Hn; [|done].
    rewrite (inv_wg _ HI) in Hn.
    apply live_zero_exited in Hn. rewrite Forall_forall in Hn.
    apply list_elem_of_lookup_2 in Hw. by apply Hn in Hw.
Qed.

Lemma Stop_inv p p' ev : Inv p → Stop p = Done (p', ev) → Inv p'.
Proof.
  intros HI. pose proof HI as [Hcap Hrq Hnd Hpk Hwg Hst].
  unfold Stop, stop_inv in *.
  destruct (mu p) as [[]|] eqn:Hmu.
  - destruct (isStopped p) eqn:Hs; intros [= <- <-]; split; try done;
      unfold stop_inv; simpl; by rewrite Hs.
  - intros [= <- <-]. split; try done. unfold stop_inv; simpl. intuition.
  - intros [= <- <-]. apply (Inv_wake_parked (set_mu _ (set_ctxDone true p))).
    + done.
    + done.
    + unfold stop_inv; simpl. intuition.
  - destruct (taskQueueClosed p) eqn:Hc; [done|]. intros [= <- <-].
    apply (Inv_wake_parked (set_mu _ (set_taskQueueClosed true p))).
    + done.
    + done.
    + unfold stop_inv; simpl. intuition.
  - destruct (workerWaitGroup p) eqn:Hn; [|done]. intros [= <- <-].
    split; try done; [simpl; congruence|]. unfold stop_inv; simpl.
    destruct Hst as (Hs & ? & ?). by rewrite Hs.
  - intros [= <- <-]. by split.
Qed.

Lemma Stop_no_panic p : Inv p → Stop p ≠ Panic.
Proof.
  intros [_ _ _ _ _ Hst]. unfold Stop, stop_inv in *.
  destruct (mu p) as [[]|]; try done.
  - by destruct (isStopped p).
  - destruct Hst as (_ & _ & ->). done.
  - by destruct (workerWaitGroup p).
Qed.

(** Under the invariant a pool that is not stopped and whose lock is free
    has an open queue, so the send of [Submit] cannot panic. *)
Lemma open_when_running p :
  Inv p → mu p = None → isStopped p = false → taskQueueClosed p = false.
Proof.
  intros [_ _ _ _ _ Hst] Hmu Hs. unfold stop_inv in Hst.
  by rewrite Hmu, Hs in Hst.
Qed.

Lemma recvq_head_parked p w r :
  Inv p → taskQueueRecvq p = w :: r →
  workers p !! w = Some WParked ∧ taskQueue p = [] ∧ ctxDone p = false.
Proof.
  intros [_ Hrq _ Hpk _ _] Hr. rewrite Hr in Hrq.
  apply Forall_cons_1 in Hrq as [Hw _]. destruct (Hpk _ Hw) as (? & ? & _ & ?).
  done.
Qed.

Lemma no_parked_when_recvq_empty p w :
  Inv p → taskQueueRecvq p = [] → workers p !! w ≠ Some WParked.
Proof.
  intros [_ _ _ Hpk _ _] Hr Hw. destruct (Hpk _ Hw) as [Hin _].
  rewrite Hr in Hin. by apply elem_of_nil in Hin.
Qed.

Lemma Submit_inv task p err p' :
  Inv p → mu p = None → Submit task p = Done (err, p') → Inv p'.
Proof.
  intros HI Hmu. unfold Submit, chansend_nb.
  destruct (isStopped p) eqn:Hs; [by intros [= <- <-]|].
  rewrite (open_when_running p HI Hmu Hs).
  destruct (taskQueueRecvq p) as [|w r] eqn:Hr.
  - destruct (Nat.ltb_spec (length (taskQueue p)) (taskQueueCap p));
      intros [= <- <-]; [|done].
    pose proof (no_parked_when_recvq_empty p) as Hnp.
    destruct HI as [Hcap Hrq Hnd Hpk Hwg Hst]. split; simpl.
    + rewrite length_app. simpl. lia.
    + done.
    + done.
    + intros w Hw. by destruct (Hnp w).
    + done.
    + done.
  - intros [= <- <-].
    destruct (recvq_head_parked p w r HI Hr) as (Hw & Hq & Hd).
    destruct HI as [Hcap Hrq Hnd Hpk Hwg Hst]. rewrite Hr in *.
    apply NoDup_cons in Hnd as [Hnin Hnd]. apply Forall_cons_1 in Hrq as [_ Hrq].
    split; simpl.
    + done.
    + apply Forall_forall. intros w' Hin.
      rewrite list_lookup_insert_ne; [|by intros ->].
      rewrite Forall_forall in Hrq. by apply Hrq.
    + done.
    + intros w' [(_ & ? & _)|[Hne Hw']]%list_lookup_insert_Some; [done|].
      destruct (Hpk _ Hw') as (Hin & ? & ? & ?). split_and!; try done.
      by apply elem_of_cons in Hin as [->|].
    + by erewrite live_insert.
    + done.
Qed.

Lemma Submit_no_panic task p : Inv p → mu p = None → Submit task p ≠ Panic.
Proof.
  intros HI Hmu. unfold Submit, chansend_nb.
  destruct (isStopped p) eqn:Hs; [done|].
  rewrite (open_when_running p HI Hmu Hs).
  destruct (taskQueueRecvq p); [|done].
  by destruct (length (taskQueue p) <? taskQueueCap p).
Qed.

Lemma step_inv l p p' ev : Inv p → step l p = Done (p', ev) → Inv p'.
Proof.
  intros HI. destruct l as [task| |w pick|]; simpl.
  - destruct (mu p) eqn:Hmu; [done|].
    destruct (Submit task p) as [[err p'']| |] eqn:HS; [|done..].
    intros [= <- <-]. by eapply Submit_inv.
  - by apply Stop_inv.
  - by apply process_inv.
  - intros [= <- <-]. destruct HI as [Hcap Hrq Hnd Hpk Hwg Hst].
    apply (Inv_wake_parked (set_ctxDone true p)); [done..|].
    unfold stop_inv in *; simpl.
    destruct (mu p) as [[]|], (isStopped p); intuition.
Qed.

Lemma step_no_panic l p : Inv p → step l p ≠ Panic.
Proof.
  intros HI. destruct l as [task| |w pick|]; simpl.
  - destruct (mu p) eqn:Hmu; [done|].
    pose proof (Submit_no_panic task p HI Hmu).
    by destruct (Submit task p) as [[err p'']| |].
  - by apply Stop_no_panic.
  - by apply process_no_panic.
  - done.
Qed.

(** ** Schedules *)

Lemma run_app ls ls' p :
  run (ls ++ ls') p =
  match run ls p with
  | Done (p', ev) =>
      match run ls' p' with
      | Done (p'', ev') => Done (p'', ev ++ ev')
      | Blocked => Blocked
      | Panic => Panic
      end
  | Blocked => Blocked
  | Panic => Panic
  end.
Proof.
  revert p. induction ls as [|l ls IH]; intros p; simpl.
  - by destruct (run ls' p) as [[]| |].
  - destruct (step l p) as [[p1 e1]| |]; [|done..]. rewrite IH.
    destruct (run ls p1) as [[p2 e2]| |]; [|done..].
    destruct (run ls' p2) as [[p3 e3]| |]; [|done..].
    by rewrite (assoc_L (++)).
Qed.

(** Induction principle for properties of a state together with the trace
    that led to it. *)
Lemma run_ind_trace (I : WorkerPool Func → list (Event Func) → Prop) :
  (∀ l p tr p' ev, Inv p → I p tr → step l p = Done (p', ev) →
     I p' (tr ++ ev)) →
  ∀ ls p tr p' ev, Inv p → I p tr → run ls p = Done (p', ev) →
     I p' (tr ++ ev).
Proof.
  intros Hstep. induction ls as [|l ls IH]; intros p tr p' ev HI HIp; simpl.
  - intros [= <- <-]. by rewrite app_nil_r.
  - destruct (step l p) as [[p1 e1]| |] eqn:Hs; [|done..].
    destruct (run ls p1) as [[p2 e2]| |] eqn:Hr; [|done..].
    intros [= <- <-]. rewrite (assoc_L (++)).
    eapply IH; [by eapply step_inv| |done]. by eapply Hstep.
Qed.

Lemma run_inv ls p p' ev : Inv p → run ls p = Done (p', ev) → Inv p'.
Proof.
  revert p ev. induction ls as [|l ls IH]; intros p ev HI; simpl.
  - by intros [= <- <-].
  - destruct (step l p) as [[p1 e1]| |] eqn:Hs; [|done..].
    destruct (run ls p1) as [[p2 e2]| |] eqn:Hr; [|done..].
    intros [= <- <-]. eapply IH; [|done]. by eapply step_inv.
Qed.

(** No schedule makes the pool panic: [Submit] never sends on the closed
    channel, [Stop] closes it once, and the wait group never goes negative. *)
Lemma run_no_panic ls p : Inv p → run ls p ≠ Panic.
Proof.
  revert p. induction ls as [|l ls IH]; intros p HI; simpl; [done|].
  pose proof (step_no_panic l p HI).
  destruct (step l p) as [[p1 e1]| |] eqn:Hs; [|done..].
  specialize (IH p1 (step_inv _ _ _ _ HI Hs)).
  by destruct (run ls p1) as [[p2 e2]| |].
Qed.

(** ** Traces *)

Lemma accepted_app tr tr' : accepted (tr ++ tr') = accepted tr ++ accepted tr'.
Proof. apply bind_app. Qed.
Lemma ran_app tr tr' : ran (tr ++ tr') = ran tr ++ ran tr'.
Proof. apply bind_app. Qed.
Lemma hooks_app tr tr' : hooks (tr ++ tr') = hooks tr ++ hooks tr'.
Proof. apply bind_app. Qed.
Lemma stops_app tr tr' : stops (tr ++ tr') = stops tr ++ stops tr'.
Proof. apply bind_app. Qed.

(** Every action taken, case by case. *)
Ltac step_cases H :=
  unfold step, Submit, chansend_nb, Stop, process, process_select,
    process_recv, process_return in H;
  repeat case_match; simplify_eq/=.

Lemma running_insert_idle ws w s s' :
  ws !! w = Some s → held s = [] → held s' = [] →
  running (<[w := s']> ws) ≡ₚ running ws.
Proof.
  intros H E E'. pose proof (running_insert ws w s s' H) as P.
  by rewrite E, E', !app_nil_r in P.
Qed.

Lemma running_insert_take ws w s task :
  ws !! w = Some s → held s = [] →
  running (<[w := WTask task]> ws) ≡ₚ task :: running ws.
Proof.
  intros H E. pose proof (running_insert ws w s (WTask task) H) as P.
  rewrite E, app_nil_r in P. rewrite P. simpl.
  symmetry. apply Permutation_cons_append.
Qed.

Lemma running_insert_finish ws w s' task :
  ws !! w = Some (WTask task) → held s' = [] →
  task :: running (<[w := s']> ws) ≡ₚ running ws.
Proof.
  intros H E'. pose proof (running_insert ws w (WTask task) s' H) as P.
  rewrite E', app_nil_r in P. rewrite <-P. simpl.
  apply Permutation_cons_append.
Qed.

Lemma conserved_step tr ev (W Q W' Q' : list Func) :
  accepted tr ≡ₚ ran tr ++ W ++ Q →
  accepted ev ++ W ++ Q ≡ₚ ran ev ++ W' ++ Q' →
  accepted (tr ++ ev) ≡ₚ ran (tr ++ ev) ++ W' ++ Q'.
Proof.
  intros H1 H2. rewrite accepted_app, ran_app, H1, <-!(assoc_L (++)).
  apply Permutation_app_head. rewrite <-H2, (assoc_L (++) W Q).
  apply Permutation_app_comm.
Qed.

Lemma step_conserved l p tr p' ev :
  Inv p → conserved p tr → step l p = Done (p', ev) → conserved p' (tr ++ ev).
Proof.
  intros HI HC Hs. unfold conserved in *.
  eapply conserved_step; [exact HC|]. clear HC.
  step_cases Hs.
  all: rewrite ?running_wake.
  all: try match goal with H : taskQueue _ = _ |- _ => rewrite ?H end.
  all: try done.
  - rewrite (assoc_L (++)). apply Permutation_cons_append.
  - match goal with H : taskQueueRecvq _ = _ :: _ |- _ =>
      destruct (recvq_head_parked _ _ _ HI H) as (Hw & _ & _) end.
    by erewrite running_insert_take.
  - by erewrite running_insert_idle.
  - by erewrite running_insert_idle.
  - by erewrite running_insert_idle.
  - erewrite running_insert_take by done. symmetry. apply Permutation_middle.
  - by erewrite running_insert_idle.
  - by erewrite running_insert_idle.
  - erewrite running_insert_take by done. symmetry. apply Permutation_middle.
  - by erewrite running_insert_idle.
  - by erewrite app_comm_cons, running_insert_finish.
  - by erewrite running_insert_idle.
  - by erewrite running_insert_idle.
  - by erewrite running_insert_idle.
Qed.

(** What no action changes: the capacity of the queue, the hook and the
    number of workers. *)
Lemma step_frame l p p' ev :
  step l p = Done (p', ev) →
  taskQueueCap p' = taskQueueCap p ∧ afterTaskHook p' = afterTaskHook p ∧
  length (workers p') = length (workers p).
Proof.
  intros Hs. step_cases Hs.
  all: rewrite ?length_fmap, ?length_insert; done.
Qed.

Lemma run_frame ls p p' ev :
  run ls p = Done (p', ev) →
  taskQueueCap p' = taskQueueCap p ∧ afterTaskHook p' = afterTaskHook p ∧
  length (workers p') = length (workers p).
Proof.
  revert p ev. induction ls as [|l ls IH]; intros p ev; simpl.
  - by intros [= <- <-].
  - destruct (step l p) as [[p1 e1]| |] eqn:Hs; [|done..].
    destruct (run ls p1) as [[p2 e2]| |] eqn:Hr; [|done..].
    intros [= <- <-]. destruct (step_frame _ _ _ _ Hs) as (E1 & E2 & E3).
    destruct (IH _ _ Hr) as (F1 & F2 & F3). split_and!; congruence.
Qed.

(** The flag only ever goes from false to true, and only [Stop] moves it. *)
Lemma step_isStopped l p p' ev :
  step l p = Done (p', ev) →
  isStopped p' = isStopped p ∨
  (l = LStop ∧ mu p = Some SSet ∧ isStopped p' = true).
Proof. intros Hs. step_cases Hs; auto. Qed.

Lemma step_isStopped_mono l p p' ev :
  step l p = Done (p', ev) → isStopped p = true → isStopped p' = true.
Proof. intros [->|(_ & _ & ->)]%step_isStopped; done. Qed.

Lemma run_isStopped_mono ls p p' ev :
  run ls p = Done (p', ev) → isStopped p = true → isStopped p' = true.
Proof.
  revert p ev. induction ls as [|l ls IH]; intros p ev; simpl.
  - by intros [= <- <-].
  - destruct (step l p) as [[p1 e1]| |] eqn:Hs; [|done..].
    destruct (run ls p1) as [[p2 e2]| |] eqn:Hr; [|done..].
    intros [= <- <-] H. eapply IH; [done|]. by eapply step_isStopped_mono.
Qed.

Lemma hook_pending_insert ws w s s' :
  ws !! w = Some s →
  hook_pending (<[w := s']> ws) + match s with WHook => 1 | _ => 0 end =
  hook_pending ws + match s' with WHook => 1 | _ => 0 end.
Proof. apply (tally_insert (λ s, match s with WHook => 1 | _ => 0 end)). Qed.

Lemma hook_pending_wake ws : hook_pending (wake <$> ws) = hook_pending ws.
Proof. by apply tally_wake. Qed.

Lemma step_hooked l p tr p' ev :
  Inv p → hooked p tr → step l p = Done (p', ev) → hooked p' (tr ++ ev).
Proof.
  intros HI [HF HN] Hs. unfold hooked.
  destruct (step_frame _ _ _ _ Hs) as (_ & -> & _).
  rewrite hooks_app, ran_app, Forall_app, !length_app. step_cases Hs.
  all: rewrite ?hook_pending_wake.
  all: try match goal with H : taskQueueRecvq _ = _ :: _ |- _ =>
      destruct (recvq_head_parked _ _ _ HI H) as (Hw & _ & _) end.
  all: try match goal with H : workers ?q !! ?w = Some ?s |-
                             context [<[?w := ?s']> (workers ?q)] =>
      pose proof (hook_pending_insert _ _ _ s' H) as Hp; simpl in Hp end.
  all: split; [by repeat constructor|]; intros Hh; specialize (HN Hh);
    try destruct Hh as [? [=]]; lia.
Qed.

Lemma step_stop_returned l p tr p' ev :
  Inv p → stop_returned p tr → step l p = Done (p', ev) →
  stop_returned p' (tr ++ ev).
Proof.
  intros HI [HF HN] Hs. unfold stop_returned.
  rewrite stops_app, Forall_app.
  pose proof (inv_stop _ HI) as Hst. unfold stop_inv in Hst.
  step_cases Hs.
  all: rewrite ?app_nil_r.
  all: split; [by repeat constructor|]; intros Hh.
  all: try (specialize (HN Hh); destruct HN as [? [?|?]]; simplify_eq; by auto).
  all: try (destruct Hst as (? & ? & ?); by auto).
Qed.

(** ** What holds of every pool reached from its construction *)

Lemma running_replicate_select n : running (replicate n (@WSelect Func)) = [].
Proof. unfold running. induction n; simpl; [done|]. by csimpl. Qed.

Lemma hook_pending_replicate_select n :
  hook_pending (replicate n (@WSelect Func)) = 0.
Proof. unfold hook_pending, tally. by induction n. Qed.

Lemma reach_facts parentDone numOfWorkers queueSize hook p0 ls p tr :
  NewWorkerPool parentDone numOfWorkers queueSize hook = Done p0 →
  run ls p0 = Done (p, tr) →
  Inv p ∧ conserved p tr ∧ hooked p tr ∧ stop_returned p tr.
Proof.
  intros Hnew Hrun. pose proof (NewWorkerPool_inv _ _ _ _ _ Hnew) as HI.
  apply NewWorkerPool_eq in Hnew as [_ ->].
  split_and!.
  - by eapply run_inv.
  - apply (run_ind_trace conserved) with (tr := []) in Hrun; try done.
    + intros. by eapply step_conserved.
    + unfold conserved. simpl. by rewrite running_replicate_select.
  - apply (run_ind_trace hooked) with (tr := []) in Hrun; try done.
    + intros. by eapply step_hooked.
    + split; simpl; [constructor|]. by rewrite hook_pending_replicate_select.
  - apply (run_ind_trace stop_returned) with (tr := []) in Hrun; try done.
    intros. by eapply step_stop_returned.
Qed.

(** ** The pool after [Stop] has returned *)

Lemma wake_exited ws : Forall (λ s, s = WExited) ws → wake <$> ws = ws.
Proof.
  induction 1 as [|s ws -> _ IH]; csimpl; [done|]. by rewrite IH.
Qed.

Lemma stop_returned_inert p tr :
  Inv p → stop_returned p tr → stops tr ≠ [] → inert p.
Proof.
  intros HI [_ HN] Hne. destruct (HN Hne) as [Hs Hmu].
  split_and!; try done. apply live_zero_exited. rewrite <-(inv_wg _ HI).
  pose proof (inv_stop _ HI) as Hst. unfold stop_inv in Hst.
  rewrite Hs in Hst.
  by destruct Hmu as [Hmu|Hmu]; rewrite Hmu in Hst; destruct Hst as (_ & _ & ?).
Qed.

Lemma exited_lookup ws w s :
  Forall (λ s, s = WExited) ws → ws !! w = Some s → s = WExited.
Proof.
  intros HF Hw. rewrite Forall_forall in HF. apply HF.
  by eapply list_elem_of_lookup_2.
Qed.

Lemma exited_recvq_empty p :
  Inv p → Forall (λ s, s = WExited) (workers p) → taskQueueRecvq p = [].
Proof.
  intros HI HF. pose proof (inv_recvq _ HI) as Hrq.
  destruct (taskQueueRecvq p) as [|w r]; [done|].
  apply Forall_cons_1 in Hrq as [Hw _]. by apply (exited_lookup _ _ _ HF) in Hw.
Qed.

(** An inert pool stays as it is: an action changes at most who holds [mu],
    and the only events are rejected submissions and [Stop] returns. *)
Lemma inert_step l p p' ev :
  Inv p → inert p → step l p = Done (p', ev) →
  inert p' ∧ set_mu (mu p) p' = p ∧
  ((ev = [] ∧ (p' = p ∨ l = LStop)) ∨ (ev = [EvStop None] ∧ l = LStop) ∨
   (∃ task, l = LSubmit task ∧ ev = [EvSubmit task (Some ErrPoolStopped)] ∧
            p' = p)).
Proof.
  intros HI (Hs & HF & Hmu) Hstep.
  pose proof (exited_recvq_empty p HI HF) as Hr.
  pose proof (inv_stop _ HI) as Hst. unfold stop_inv in Hst.
  assert (ctxDone p = true) as Hd.
  { rewrite Hs in Hst.
    by destruct Hmu as [Hmu|Hmu]; rewrite Hmu in Hst; destruct Hst as (? & _). }
  assert (set_mu (mu p) p = p) as Hid by (by destruct p).
  unfold inert. revert Hstep. destruct l as [task| |w pick|]; simpl.
  - destruct (mu p) eqn:Hm; [done|]. unfold Submit. rewrite Hs.
    intros [= <- <-]. split_and!; auto. right; right. by exists task.
  - unfold Stop. destruct Hmu as [Hmu|Hmu]; rewrite Hmu.
    + intros [= <- <-]. split_and!; simpl; auto. by rewrite <-Hmu.
    + rewrite Hs. intros [= <- <-]. split_and!; simpl; auto.
      by rewrite <-Hmu.
  - unfold process.
    destruct (workers p !! w) as [s|] eqn:Hw; [|done].
    by apply (exited_lookup _ _ _ HF) in Hw as ->.
  - intros [= <- <-].
    assert (wake_parked (set_ctxDone true p) = p) as ->.
    { unfold wake_parked; simpl. rewrite (wake_exited _ HF).
      destruct p; simplify_eq/=. done. }
    split_and!; auto.
Qed.

Lemma inert_run ls p p' tr :
  Inv p → inert p → run ls p = Done (p', tr) →
  inert p' ∧ set_mu (mu p) p' = p ∧ Forall rejection tr.
Proof.
  revert p tr. induction ls as [|l ls IH]; intros p tr HI Hin; simpl.
  - intros [= <- <-]. split_and!; [done| |constructor]. by destruct p.
  - destruct (step l p) as [[p1 e1]| |] eqn:Hs; [|done..].
    destruct (run ls p1) as [[p2 e2]| |] eqn:Hr; [|done..].
    intros [= <- <-].
    destruct (inert_step _ _ _ _ HI Hin Hs) as (Hin1 & Hp1 & Hev).
    destruct (IH _ _ (step_inv _ _ _ _ HI Hs) Hin1 Hr) as (Hin2 & Hp2 & Hev2).
    split_and!; [done| |].
    + transitivity (set_mu (mu p) p1); [|done]. rewrite <-Hp2. by destruct p2.
    + apply Forall_app. split; [|done].
      destruct Hev as [[-> _]|[[-> _]|(task & _ & -> & _)]].
      * constructor.
      * apply Forall_singleton. by left.
      * apply Forall_singleton. right. by exists task.
Qed.

Lemma exits_app tr tr' : exits (tr ++ tr') = exits tr ++ exits tr'.
Proof. apply bind_app. Qed.

Lemma step_exits_counted l p tr p' ev :
  Inv p → exits_counted p tr → step l p = Done (p', ev) →
  exits_counted p' (tr ++ ev).
Proof.
  intros HI HE Hs. unfold exits_counted in *.
  rewrite exits_app, length_app. step_cases Hs.
  all: rewrite ?live_wake, ?length_fmap, ?length_insert.
  all: try match goal with H : taskQueueRecvq _ = _ :: _ |- _ =>
      destruct (recvq_head_parked _ _ _ HI H) as (Hw & _ & _) end.
  all: try (erewrite live_insert by done).
  all: try (simpl; lia).
  match goal with H : workers _ !! _ = Some WExiting |- _ =>
    pose proof (live_insert_exited _ _ _ H eq_refl) end.
  simpl. lia.
Qed.

Lemma reach_exits parentDone numOfWorkers queueSize hook p0 ls p tr :
  NewWorkerPool parentDone numOfWorkers queueSize hook = Done p0 →
  run ls p0 = Done (p, tr) →
  length (workers p) = Z.to_nat numOfWorkers ∧ exits_counted p tr.
Proof.
  intros Hnew Hrun. pose proof (NewWorkerPool_inv _ _ _ _ _ Hnew) as HI.
  destruct (run_frame _ _ _ _ Hrun) as (_ & _ & Hlen).
  apply NewWorkerPool_eq in Hnew as [_ ->]. simpl in Hlen.
  rewrite length_replicate in Hlen. split; [done|].
  apply (run_ind_trace exits_counted) with (tr := []) in Hrun; try done.
  - intros. by eapply step_exits_counted.
  - unfold exits_counted. simpl.
    by rewrite live_replicate_select, length_replicate.
Qed.

(** A [Stop] call on a stopped pool whose lock is free: it takes the lock,
    sees the flag, and returns. *)
Lemma Stop_again p :
  mu p = None → isStopped p = true →
  run [LStop; LStop] p = Done (p, [EvStop None]).
Proof.
  intros Hmu Hs. simpl. unfold Stop. rewrite Hmu. simpl. rewrite Hs.
  destruct p; simplify_eq/=. done.
Qed.

(** ** The flag along a schedule *)

Lemma trajectory_stopped ls p :
  isStopped p = true →
  isStopped <$> trajectory ls p = replicate (length (trajectory ls p)) true.
Proof.
  revert p. induction ls as [|l ls IH]; intros p Hs; csimpl.
  - by rewrite Hs.
  - rewrite Hs. f_equal. destruct (step l p) as [[p1 e1]| |] eqn:Hst; try done.
    apply IH. by eapply step_isStopped_mono.
Qed.

Lemma trajectory_flags ls p :
  ∃ k m, isStopped <$> trajectory ls p =
         replicate k false ++ replicate m true.
Proof.
  revert p. induction ls as [|l ls IH]; intros p.
  - destruct (isStopped p) eqn:Hs.
    + exists 0, 1. csimpl. by rewrite Hs.
    + exists 1, 0. csimpl. by rewrite Hs.
  - destruct (isStopped p) eqn:Hs.
    + exists 0, (length (trajectory (l :: ls) p)). by apply trajectory_stopped.
    + csimpl. rewrite Hs. destruct (step l p) as [[p1 e1]| |] eqn:Hst.
      * destruct (IH p1) as (k & m & ->). by exists (S k), m.
      * by exists 1, 0.
      * by exists 1, 0.
Qed.

Lemma trajectory_last ls p p' tr :
  run ls p = Done (p', tr) → last (trajectory ls p) = Some p'.
Proof.
  revert p tr. induction ls as [|l ls IH]; intros p tr; simpl.
  - by intros [= <- <-].
  - destruct (step l p) as [[p1 e1]| |] eqn:Hs; [|done..].
    destruct (run ls p1) as [[p2 e2]| |] eqn:Hr; [|done..].
    intros [= <- <-]. specialize (IH _ _ Hr).
    destruct (trajectory ls p1) eqn:Ht; [done|]. by rewrite last_cons, IH.
Qed.

(** ** Submissions *)

Lemma open_when_not_stopped p :
  Inv p → isStopped p = false → taskQueueClosed p = false.
Proof.
  intros [_ _ _ _ _ Hst] Hs. unfold stop_inv in Hst. rewrite Hs in Hst.
  destruct (mu p) as [[]|]; try done; by destruct Hst.
Qed.

(** Submissions in a row on a pool in which no worker waits for a task:
    as long as there is room, each is accepted and appended. *)
Lemma submit_burst ts p :
  mu p = None → isStopped p = false → taskQueueClosed p = false →
  taskQueueRecvq p = [] →
  length (taskQueue p) + length ts ≤ taskQueueCap p →
  run (LSubmit <$> ts) p =
    Done (set_taskQueue (taskQueue p ++ ts) p,
          (λ task, EvSubmit task None) <$> ts).
Proof.
  revert p. induction ts as [|t ts IH]; intros p Hmu Hs Hc Hr Hlen; csimpl.
  - rewrite app_nil_r. by destruct p.
  - unfold Submit, chansend_nb. rewrite Hmu, Hs, Hc, Hr.
    simpl in Hlen.
    destruct (Nat.ltb_spec (length (taskQueue p)) (taskQueueCap p)); [|lia].
    rewrite IH; simpl; try done.
    + by rewrite <-(assoc_L (++)).
    + rewrite length_app. simpl. lia.
Qed.

Lemma submit_full task p :
  isStopped p = false → taskQueueClosed p = false → taskQueueRecvq p = [] →
  length (taskQueue p) = taskQueueCap p →
  Submit task p = Done (Some ErrQueueFull, p).
Proof.
  intros Hs Hc Hr Hlen. unfold Submit, chansend_nb. rewrite Hs, Hc, Hr.
  destruct (Nat.ltb_spec (length (taskQueue p)) (taskQueueCap p)); [lia|done].
Qed.

(** ** Workers running to their end *)

Lemma step_ctxDone_mono l p p' ev :
  step l p = Done (p', ev) → ctxDone p = true → ctxDone p' = true.
Proof. intros Hs Hd. step_cases Hs; done || congruence. Qed.

Lemma run_ctxDone_mono ls p p' ev :
  run ls p = Done (p', ev) → ctxDone p = true → ctxDone p' = true.
Proof.
  revert p ev. induction ls as [|l ls IH]; intros p ev; simpl.
  - by intros [= <- <-].
  - destruct (step l p) as [[p1 e1]| |] eqn:Hs; [|done..].
    destruct (run ls p1) as [[p2 e2]| |] eqn:Hr; [|done..].
    intros [= <- <-] H. eapply IH; [done|]. by eapply step_ctxDone_mono.
Qed.

(** With the context done nobody is blocked in the select. *)
Lemma done_no_parked p :
  Inv p → ctxDone p = true →
  taskQueueRecvq p = [] ∧ Forall (λ s, s ≠ WParked) (workers p).
Proof.
  intros HI Hd. split.
  - destruct (taskQueueRecvq p) as [|w r] eqn:Hr; [done|].
    destruct (recvq_head_parked _ _ _ HI Hr) as (_ & _ & ?). congruence.
  - apply Forall_forall. intros s [w Hw]%list_elem_of_lookup_1 ->.
    destruct (inv_parked _ HI _ Hw) as (_ & _ & _ & ?). congruence.
Qed.

Lemma frame_set_worker w s p : frame (set_worker w s p) = frame p.
Proof. done. Qed.

Lemma advance_step p w s :
  Inv p → ctxDone p = true → workers p !! w = Some s →
  s ≠ WParked → s ≠ WExited →
  ∃ p' ev, step (LWorker w PickDone) p = Done (p', ev) ∧
    frame p' = frame p ∧ workers p' = <[w := advance s]> (workers p).
Proof.
  intros HI Hd Hw Hp He. simpl. unfold process. rewrite Hw.
  destruct s; try done.
  - eexists _, _. split; [done|]. unfold process_select, process_return.
    rewrite Hd. by destruct (taskQueue p), (taskQueueClosed p).
  - by eexists _, _.
  - destruct (afterTaskHook p); by eexists _, _.
  - destruct (workerWaitGroup p) as [|n] eqn:Hn.
    + rewrite (inv_wg _ HI) in Hn. apply live_zero_exited in Hn.
      by apply (exited_lookup _ _ _ Hn) in Hw.
    + by eexists _, _.
Qed.

Lemma exit_sched_run p w s :
  Inv p → ctxDone p = true → workers p !! w = Some s → s ≠ WParked →
  ∃ p' tr, run (exit_sched w s) p = Done (p', tr) ∧
    frame p' = frame p ∧ workers p' = <[w := WExited]> (workers p).
Proof.
  unfold exit_sched. remember (steps_to_exit s) as n eqn:Hn.
  revert s p Hn. induction n as [|n IH]; intros s p Hn HI Hd Hw Hp.
  - exists p, []. split_and!; [done..|]. symmetry. apply list_insert_id.
    by destruct s.
  - destruct (advance_step p w s HI Hd Hw Hp) as (p1 & e1 & Hs & Hf & Hws).
    { by intros ->. }
    destruct (IH (advance s) p1) as (p2 & e2 & Hr & Hf2 & Hws2).
    + destruct s; simpl in *; congruence.
    + by eapply step_inv.
    + by eapply step_ctxDone_mono.
    + rewrite Hws. apply list_lookup_insert_eq. by eapply lookup_lt_Some.
    + by destruct s.
    + exists p2, (e1 ++ e2). split_and!.
      * cbn [replicate run]. by rewrite Hs, Hr.
      * congruence.
      * by rewrite Hws2, Hws, list_insert_insert_eq.
Qed.

Lemma worker_label_exit_sched w s : Forall worker_label (exit_sched w s).
Proof. apply Forall_replicate. exact I. Qed.

Lemma drain_from ws' k p :
  Inv p → ctxDone p = true → drop k (workers p) = ws' →
  ∃ p' tr,
    run (mjoin (imap (λ i, exit_sched (k + i)) ws')) p = Done (p', tr) ∧
    frame p' = frame p ∧
    workers p' = take k (workers p) ++ replicate (length ws') WExited.
Proof.
  revert k p. induction ws' as [|s ws' IH]; intros k p HI Hd Hdrop.
  - exists p, []. split_and!; [done..|]. simpl. rewrite app_nil_r.
    rewrite <-(take_drop k (workers p)) at 1. by rewrite Hdrop, app_nil_r.
  - assert (workers p !! k = Some s) as Hw.
    { rewrite <-(Nat.add_0_r k), <-lookup_drop. by rewrite Hdrop. }
    destruct (done_no_parked p HI Hd) as [_ Hnp].
    destruct (exit_sched_run p k s HI Hd Hw) as (p1 & e1 & Hr1 & Hf1 & Hws1).
    { rewrite Forall_forall in Hnp. apply Hnp.
      by eapply list_elem_of_lookup_2. }
    destruct (IH (S k) p1) as (p2 & e2 & Hr2 & Hf2 & Hws2).
    + by eapply run_inv.
    + by eapply run_ctxDone_mono.
    + rewrite Hws1, drop_insert_lt by lia.
      erewrite drop_S in Hdrop by done. congruence.
    + exists p2, (e1 ++ e2). split_and!.
      * rewrite imap_cons. simpl mjoin. rewrite run_app, Nat.add_0_r, Hr1.
        erewrite imap_ext; [by rewrite Hr2|].
        intros i x _. simpl. f_equal. lia.
      * congruence.
      * rewrite Hws2, Hws1. erewrite take_S_r
          by (apply list_lookup_insert_eq; by eapply lookup_lt_Some).
        rewrite take_insert_ge by lia. by rewrite <-(assoc_L (++)).
Qed.

(** With the context done, the workers can all run to their end, leaving
    the rest of the pool as it is. *)
Lemma drain_run p :
  Inv p → ctxDone p = true →
  ∃ p' tr,
    run (drain_sched (workers p)) p = Done (p', tr) ∧
    frame p' = frame p ∧ Forall (λ s, s = WExited) (workers p').
Proof.
  intros HI Hd.
  destruct (drain_from (workers p) 0 p HI Hd eq_refl) as (p' & tr & Hr & Hf & Hw).
  exists p', tr. split_and!; [done..|].
  rewrite Hw. simpl. by apply Forall_replicate.
Qed.

Lemma worker_label_drain_sched ws : Forall worker_label (drain_sched ws).
Proof.
  unfold drain_sched. generalize (@exit_sched Func) (@worker_label_exit_sched).
  induction ws as [|s ws IH]; intros f Hf; simpl; [constructor|].
  apply Forall_app. split; [apply Hf|]. apply IH. intros. apply Hf.
Qed.

(** ** A pool without workers *)

(** Once every worker has exited the goroutines stay as they are, no task
    is run, no hook called, and the queue only grows. *)
Lemma exited_step l p p' ev :
  Inv p → Forall (λ s, s = WExited) (workers p) → step l p = Done (p', ev) →
  workers p' = workers p ∧ ran ev = [] ∧ hooks ev = [] ∧
  taskQueue p `prefix_of` taskQueue p'.
Proof.
  intros HI HF Hs. pose proof (exited_recvq_empty p HI HF) as Hr.
  pose proof (wake_exited _ HF) as Hwk.
  destruct l as [task| |w pick|]; simpl in Hs.
  - destruct (mu p); [done|]. unfold Submit, chansend_nb in Hs.
    rewrite Hr in Hs. repeat case_match; simplify_eq/=; split_and!; try done.
    by apply prefix_app_r.
  - unfold Stop in Hs. repeat case_match; simplify_eq/=; by rewrite ?Hwk.
  - unfold process in Hs. destruct (workers p !! w) as [s|] eqn:Hw; [|done].
    by apply (exited_lookup _ _ _ HF) in Hw as ->.
  - simplify_eq/=. by rewrite Hwk.
Qed.

Lemma exited_run ls p p' tr :
  Inv p → Forall (λ s, s = WExited) (workers p) → run ls p = Done (p', tr) →
  workers p' = workers p ∧ ran tr = [] ∧ hooks tr = [] ∧
  taskQueue p `prefix_of` taskQueue p'.
Proof.
  revert p tr. induction ls as [|l ls IH]; intros p tr HI HF; simpl.
  - by intros [= <- <-].
  - destruct (step l p) as [[p1 e1]| |] eqn:Hs; [|done..].
    destruct (run ls p1) as [[p2 e2]| |] eqn:Hr; [|done..].
    intros [= <- <-].
    destruct (exited_step _ _ _ _ HI HF Hs) as (Hw1 & Hr1 & Hh1 & Hq1).
    destruct (IH p1 e2) as (Hw2 & Hr2 & Hh2 & Hq2);
      [by eapply step_inv|by rewrite Hw1|done|].
    rewrite ran_app, hooks_app, Hr1, Hr2, Hh1, Hh2, Hw2, Hw1.
    split_and!; try done. by etrans.
Qed.

(** ** Blocking *)

Lemma Submit_returns task p :
  Inv p → mu p = None →
  ∃ err p', Submit task p = Done (err, p') ∧
    (err = None ∨ err = Some ErrPoolStopped ∨ err = Some ErrQueueFull).
Proof.
  intros HI Hmu. unfold Submit, chansend_nb.
  destruct (isStopped p) eqn:Hs; [by eauto 6|].
  rewrite (open_when_running p HI Hmu Hs).
  destruct (taskQueueRecvq p); [|by eauto 6].
  destruct (length (taskQueue p) <? taskQueueCap p); by eauto 6.
Qed.

Lemma Stop_blocked p :
  Inv p →
  Stop p = Blocked ↔
  mu p = Some SWait ∧ ¬ Forall (λ s, s = WExited) (workers p).
Proof.
  intros HI. rewrite <-live_zero_exited, <-(inv_wg _ HI).
  pose proof (Stop_no_panic p HI) as Hnp. unfold Stop in *.
  destruct (mu p) as [[]|]; try destruct (isStopped p);
    try destruct (taskQueueClosed p); try destruct (workerWaitGroup p);
    (split; [intros ?|intros [? ?]]); done.
Qed.

Lemma step_mu l p p' ev :
  step l p = Done (p', ev) → mu p' = mu p ∨ l = LStop.
Proof. intros Hs. step_cases Hs; auto. Qed.

(** ** [Stop] runs to its return *)

(** The statements of [Stop] up to [Wait] need nobody's help: a call, new
    or under way, returns at its check or reaches [Wait]. *)
Lemma Stop_to_wait p :
  Inv p →
  ∃ k p' tr, run (replicate k LStop) p = Done (p', tr) ∧
    (last tr = Some (EvStop None) ∨ mu p' = Some SWait).
Proof.
  intros HI. pose proof (inv_stop _ HI) as Hst. unfold stop_inv in Hst.
  destruct (mu p) as [[]|] eqn:Hmu; destruct (isStopped p) eqn:Hs;
    try (by destruct Hst as (? & ?)).
  - exists 1. eexists _, _. simpl. unfold Stop. rewrite Hmu, Hs. eauto.
  - exists 4. eexists _, _. simpl. unfold Stop. rewrite Hmu, Hs. simpl.
    rewrite Hst. simpl. eauto.
  - exists 3. eexists _, _. simpl. unfold Stop. rewrite Hmu. simpl.
    destruct Hst as [_ ->]. simpl. eauto.
  - exists 2. eexists _, _. simpl. unfold Stop. rewrite Hmu. simpl.
    destruct Hst as [_ ->]. simpl. eauto.
  - exists 1. eexists _, _. simpl. unfold Stop. rewrite Hmu.
    destruct Hst as (_ & _ & ->). simpl. eauto.
  - exists 0. eexists _, _. simpl. eauto.
  - exists 2. eexists _, _. simpl. unfold Stop. rewrite Hmu. simpl.
    rewrite Hs. eauto.
  - exists 5. eexists _, _. simpl. unfold Stop. rewrite Hmu. simpl.
    rewrite Hs. simpl. rewrite Hst. simpl. eauto.
Qed.

Lemma stop_or_worker_label_worker (ls : list (Label Func)) :
  Forall worker_label ls → Forall stop_or_worker_label ls.
Proof. intros H. eapply Forall_impl; [done|]. by intros []. Qed.

(** From every state of the pool a [Stop] call can run to its return with
    no other help than the workers carrying on to their exit. *)
Lemma Stop_can_return p :
  Inv p →
  ∃ ls p' tr, Forall stop_or_worker_label ls ∧
    run ls p = Done (p', tr) ∧ last tr = Some (EvStop None).
Proof.
  intros HI. destruct (Stop_to_wait p HI) as (k & p1 & tr1 & Hr1 & [Hl|Hmu]).
  { exists (replicate k LStop), p1, tr1. split_and!; [|done..].
    by apply Forall_replicate. }
  assert (Inv p1) as HI1 by (by eapply run_inv).
  pose proof (inv_stop _ HI1) as Hst. unfold stop_inv in Hst.
  rewrite Hmu in Hst. destruct Hst as (_ & Hd & _).
  destruct (drain_run p1 HI1 Hd) as (pe & tre & Hre & Hf & He).
  assert (Inv pe) as HIe by (by eapply run_inv).
  exists (replicate k LStop ++ drain_sched (workers p1) ++ [LStop]),
    (set_mu None pe), (tr1 ++ tre ++ [EvStop None]).
  split_and!.
  - rewrite !Forall_app. split_and!.
    + by apply Forall_replicate.
    + apply stop_or_worker_label_worker, worker_label_drain_sched.
    + by apply Forall_singleton.
  - rewrite run_app, Hr1, run_app, Hre. simpl. unfold Stop.
    apply (f_equal mu) in Hf. simpl in Hf. rewrite Hf, Hmu.
    apply live_zero_exited in He. rewrite <-(inv_wg _ HIe) in He.
    by rewrite He.
  - by rewrite !(assoc_L (++)), last_snoc.
Qed.

(** * The claims *)

(** C1 (P2, I2): once a [Stop] call has returned, [Submit] returns
    [ErrPoolStopped] and leaves the pool, its queue included, as it was.
    This holds of the call taken now -- directly when [mu] is free, and
    after the one step in which a later [Stop] call standing at its check
    returns otherwise -- and of every [Submit] in every continuation: the
    continuation accepts no task and the queue never changes again. *)
Theorem C1_submit_after_stop parentDone numOfWorkers queueSize hook
    p0 ls p tr task :
  NewWorkerPool parentDone numOfWorkers queueSize hook = Done p0 →
  run ls p0 = Done (p, tr) →
  stops tr ≠ [] →
  Submit task p = Done (Some ErrPoolStopped, p) ∧
  (mu p = None →
   step (LSubmit task) p =
     Done (p, [EvSubmit task (Some ErrPoolStopped)])) ∧
  (mu p ≠ None →
   run [LStop; LSubmit task] p =
     Done (set_mu None p,
           [EvStop None; EvSubmit task (Some ErrPoolStopped)])) ∧
  (∀ ls' p' tr', run ls' p = Done (p', tr') →
     taskQueue p' = taskQueue p ∧ accepted tr' = [] ∧
     ∀ task' err, EvSubmit task' err ∈ tr' → err = Some ErrPoolStopped).
Proof.
  intros Hnew Hrun Hst.
  destruct (reach_facts _ _ _ _ _ _ _ _ Hnew Hrun) as (HI & _ & _ & Hsr).
  pose proof (stop_returned_inert _ _ HI Hsr Hst) as (Hs & HF & Hmu).
  split_and!.
  - unfold Submit. by rewrite Hs.
  - intros Hm. simpl. unfold Submit. by rewrite Hm, Hs.
  - intros Hm. destruct Hmu as [Hmu|Hmu]; [done|]. simpl. unfold Stop, Submit.
    rewrite Hmu, Hs. simpl. by rewrite Hs.
  - intros ls' p' tr' Hrun'.
    destruct (inert_run ls' p p' tr' HI) as (_ & Hp & Hev); [done..|].
    split_and!.
    + by rewrite <-Hp.
    + clear -Hev. induction Hev as [|e tr' [->|[t ->]] _ IH]; done.
    + intros task' err Hin. rewrite Forall_forall in Hev.
      destruct (Hev _ Hin) as [?|[? ?]]; by simplify_eq.
Qed.

(** C2 (P1, I3), amended.  The queue never holds more than its capacity
    [c], the [queueSize] given to [NewWorkerPool].  On a pool that is not
    stopped: while no worker is blocked in its receive, [Submit] appends the
    task and returns [nil] if the queue holds fewer than [c] tasks, and
    returns [ErrQueueFull], leaving the pool as it was, if it holds [c]; so
    from such a state submissions that fill the queue are all accepted and
    one more is refused.  When workers are blocked in the receive, which is
    only the case with an empty queue, the task is handed to the one that has
    waited longest and [Submit] returns [nil], the queue staying empty; with
    [c = 0] this is the one way a task is accepted.  With [c >= 1] a full
    queue always means [ErrQueueFull]. *)
Theorem C2_submit_backpressure parentDone numOfWorkers queueSize hook
    p0 ls p tr task :
  NewWorkerPool parentDone numOfWorkers queueSize hook = Done p0 →
  run ls p0 = Done (p, tr) →
  taskQueueCap p = Z.to_nat queueSize ∧
  length (taskQueue p) ≤ taskQueueCap p ∧
  (isStopped p = false →
   (taskQueueRecvq p = [] →
    (length (taskQueue p) < taskQueueCap p →
     Submit task p =
       Done (None, set_taskQueue (taskQueue p ++ [task]) p)) ∧
    (length (taskQueue p) = taskQueueCap p →
     Submit task p = Done (Some ErrQueueFull, p)) ∧
    (mu p = None → ∀ ts,
       length (taskQueue p) + length ts = taskQueueCap p →
       run (LSubmit <$> (ts ++ [task])) p =
         Done (set_taskQueue (taskQueue p ++ ts) p,
               ((λ t, EvSubmit t None) <$> ts) ++
               [EvSubmit task (Some ErrQueueFull)]))) ∧
   (∀ w r, taskQueueRecvq p = w :: r →
      taskQueue p = [] ∧ workers p !! w = Some WParked ∧
      Submit task p =
        Done (None, set_taskQueueRecvq r (set_worker w (WTask task) p))) ∧
   (0 < taskQueueCap p → length (taskQueue p) = taskQueueCap p →
    Submit task p = Done (Some ErrQueueFull, p))).
Proof.
  intros Hnew Hrun.
  destruct (reach_facts _ _ _ _ _ _ _ _ Hnew Hrun) as (HI & _ & _ & _).
  destruct (run_frame _ _ _ _ Hrun) as (Hcap & _ & _).
  apply NewWorkerPool_eq in Hnew as [_ ->]. simpl in Hcap.
  split_and!; [done|by apply inv_cap|]. intros Hs.
  pose proof (open_when_not_stopped p HI Hs) as Hc.
  split_and!.
  - intros Hr. split_and!.
    + intros Hlt. unfold Submit, chansend_nb. rewrite Hs, Hc, Hr.
      by destruct (Nat.ltb_spec (length (taskQueue p)) (taskQueueCap p));
        [|lia].
    + by apply submit_full.
    + intros Hmu ts Hlen. rewrite fmap_app, run_app, submit_burst by (done || lia).
      simpl. rewrite Hmu, submit_full
        by (simpl; try done; rewrite length_app; lia).
      done.
  - intros w r Hr. destruct (recvq_head_parked _ _ _ HI Hr) as (Hw & Hq & _).
    split_and!; [done..|]. unfold Submit, chansend_nb. by rewrite Hs, Hc, Hr.
  - intros Hpos Hlen. apply submit_full; try done.
    destruct (taskQueueRecvq p) as [|w r] eqn:Hr; [done|].
    destruct (recvq_head_parked _ _ _ HI Hr) as (_ & Hq & _).
    rewrite Hq in Hlen. simpl in Hlen. lia.
Qed.

(** C3 (I4): the pool has exactly [numOfWorkers] workers; [Stop], standing at
    [Wait], cannot return while one of them has not exited; and in every
    state reached after a [Stop] call has returned, all [numOfWorkers]
    workers have exited, each having executed its [Done()] once. *)
Theorem C3_stop_waits_for_workers parentDone numOfWorkers queueSize hook
    p0 ls p tr :
  NewWorkerPool parentDone numOfWorkers queueSize hook = Done p0 →
  run ls p0 = Done (p, tr) →
  length (workers p) = Z.to_nat numOfWorkers ∧
  (mu p = Some SWait →
   (∃ w s, workers p !! w = Some s ∧ s ≠ WExited) →
   step LStop p = Blocked) ∧
  (stops tr ≠ [] →
   Forall (λ s, s = WExited) (workers p) ∧
   length (exits tr) = Z.to_nat numOfWorkers).
Proof.
  intros Hnew Hrun.
  destruct (reach_facts _ _ _ _ _ _ _ _ Hnew Hrun) as (HI & _ & _ & Hsr).
  destruct (reach_exits _ _ _ _ _ _ _ _ Hnew Hrun) as (Hlen & Hex).
  split_and!; [done| |].
  - intros Hmu (w & s & Hw & Hs). simpl. unfold Stop. rewrite Hmu.
    destruct (workerWaitGroup p) eqn:Hn; [|done]. exfalso. apply Hs.
    rewrite (inv_wg _ HI) in Hn. apply live_zero_exited in Hn.
    by eapply exited_lookup.
  - intros Hst. pose proof (stop_returned_inert _ _ HI Hsr Hst) as (_ & HF & _).
    split; [done|]. unfold exits_counted in Hex.
    apply live_zero_exited in HF. lia.
Qed.

(** C5, amended.  [NewWorkerPool] checks nothing about the number of
    workers.  Given a number that is not positive it fails exactly when the
    [make] of the channel panics, that is when the queue size is negative
    or beyond what the platform accepts; otherwise it returns a pool that
    is not stopped and has no worker at all.  That pool takes submissions
    like any other -- as many as the queue holds -- yet in no run is a task
    executed or the hook called, and a [Stop] call on it returns at once.
    The guard is in the caller: [MustLoad] replaces numbers that are not
    positive by the defaults, so [main] asks for at least one worker and
    room for at least one task, and the pool it gets, the [make] having
    succeeded, has them. *)
Theorem C5_no_validation_in_constructor parentDone numOfWorkers queueSize
    hook :
  (numOfWorkers ≤ 0)%Z →
  ((queueSize < 0 ∨ maxChanSize < queueSize)%Z →
   NewWorkerPool parentDone numOfWorkers queueSize hook = Panic) ∧
  ((0 ≤ queueSize ≤ maxChanSize)%Z →
   ∃ p0,
     NewWorkerPool parentDone numOfWorkers queueSize hook = Done p0 ∧
     workers p0 = [] ∧ isStopped p0 = false ∧
     (∀ ts, length ts ≤ Z.to_nat queueSize →
        run (LSubmit <$> ts) p0 =
          Done (set_taskQueue ts p0, (λ t, EvSubmit t None) <$> ts)) ∧
     (∀ ls p tr, run ls p0 = Done (p, tr) →
        workers p = [] ∧ ran tr = [] ∧ hooks tr = []) ∧
     run [LStop; LStop; LStop; LStop; LStop; LStop] p0 =
       Done (set_taskQueueClosed true
               (set_ctxDone true (set_isStopped true p0)), [EvStop None])) ∧
  (∀ cfg h,
     (1 ≤ NumberOfWorkers (MustLoad_defaults cfg))%Z ∧
     (1 ≤ QueueSize (MustLoad_defaults cfg))%Z ∧
     ∀ p0, main_pool cfg h = Done p0 →
       1 ≤ length (workers p0) ∧ 1 ≤ taskQueueCap p0).
Proof.
  intros Hn. split_and!.
  - intros Hq. unfold NewWorkerPool.
    destruct (Z.ltb_spec queueSize 0); [done|].
    destruct (Z.ltb_spec maxChanSize queueSize); [done|lia].
  - intros Hq.
    destruct (NewWorkerPool parentDone numOfWorkers queueSize hook)
      as [p0| |] eqn:Hnew;
      try (unfold NewWorkerPool in Hnew;
           destruct (Z.ltb_spec queueSize 0); [lia|];
           by destruct (Z.ltb_spec maxChanSize queueSize); [lia|]).
    pose proof (NewWorkerPool_inv _ _ _ _ _ Hnew) as HI.
    apply NewWorkerPool_eq in Hnew as [_ Hp0].
    replace (Z.to_nat numOfWorkers) with 0 in Hp0 by lia. simpl in Hp0.
    exists p0. split_and!; [done|by subst..| | |by subst].
    + intros ts Hlen. rewrite submit_burst; subst; simpl; done || lia.
    + intros ls p tr Hrun.
      destruct (exited_run ls p0 p tr HI) as (Hw & ? & ? & _); [|done|].
      { subst. constructor. }
      split_and!; [|done..]. rewrite Hw. by subst.
  - intros cfg h.
    assert ((1 ≤ NumberOfWorkers (MustLoad_defaults cfg))%Z ∧
            (1 ≤ QueueSize (MustLoad_defaults cfg))%Z) as [Hw Hq].
    { unfold MustLoad_defaults, DefaultQueueSize, DefaultNumberOfWorkers.
      destruct cfg as [q n]; simpl.
      destruct (Z.leb_spec q 0); simpl; destruct (Z.leb_spec n 0); simpl;
        lia. }
    split_and!; [done..|]. unfold main_pool.
    intros p0 [_ ->]%NewWorkerPool_eq. simpl. rewrite length_replicate. lia.
Qed.

(** C6 (P3): every [Stop] return carries [nil]; from every state a [Stop]
    call, new or under way, can run to its return with no help but the
    workers carrying on to their exit; and once one call has returned, any
    number of further calls, each made with [mu] free, return [nil] in two
    steps of their own -- taking the lock and seeing the flag -- and leave
    the pool exactly as it was. *)
Theorem C6_stop_idempotent parentDone numOfWorkers queueSize hook
    p0 ls p tr :
  NewWorkerPool parentDone numOfWorkers queueSize hook = Done p0 →
  run ls p0 = Done (p, tr) →
  Forall (λ err, err = None) (stops tr) ∧
  (∃ ls' p' tr', Forall stop_or_worker_label ls' ∧
     run ls' p = Done (p', tr') ∧ last tr' = Some (EvStop None)) ∧
  (stops tr ≠ [] → mu p = None →
   ∀ k, run (mjoin (replicate k [LStop; LStop])) p =
          Done (p, replicate k (EvStop None))).
Proof.
  intros Hnew Hrun.
  destruct (reach_facts _ _ _ _ _ _ _ _ Hnew Hrun) as (HI & _ & _ & Hsr).
  split_and!; [by destruct Hsr|by apply Stop_can_return|]. intros Hst Hmu k.
  pose proof (stop_returned_inert _ _ HI Hsr Hst) as (Hs & _ & _).
  induction k as [|k IH]; [done|].
  change (mjoin (replicate (S k) [LStop; LStop]))
    with ([@LStop Func; LStop] ++ mjoin (replicate k [LStop; LStop])).
  by rewrite run_app, Stop_again, IH.
Qed.

(** C7 (I1): the flag is false in the pool that [NewWorkerPool] returns;
    along every schedule the sequence of its values is a block of [false]
    followed by a block of [true], so it changes at most once and never
    back; the one action that changes it is the assignment of [Stop]; in a
    run in which a [Stop] call has returned the change has happened; and
    [Stop] does make it: on a pool whose flag is false a [Stop] call, new
    or under way, sets the flag within three steps of its own -- lock,
    check, assignment -- the flag being false up to the last of them and
    true after it. *)
Theorem C7_flag_monotonic parentDone numOfWorkers queueSize hook p0 ls :
  NewWorkerPool parentDone numOfWorkers queueSize hook = Done p0 →
  isStopped p0 = false ∧
  (∃ k m, isStopped <$> trajectory ls p0 =
            replicate (S k) false ++ replicate m true ∧
          ∀ p tr, run ls p0 = Done (p, tr) → stops tr ≠ [] → 0 < m) ∧
  (∀ p tr l p' ev, run ls p0 = Done (p, tr) → step l p = Done (p', ev) →
     (isStopped p = true → isStopped p' = true) ∧
     (isStopped p' ≠ isStopped p →
      l = LStop ∧ mu p = Some SSet ∧
      isStopped p = false ∧ isStopped p' = true)) ∧
  (∀ p tr, run ls p0 = Done (p, tr) → isStopped p = false →
     ∃ k p', 1 ≤ k ≤ 3 ∧ (mu p = None → k = 3) ∧
       run (replicate k LStop) p = Done (p', []) ∧
       isStopped p' = true ∧
       isStopped <$> trajectory (replicate k LStop) p =
         replicate k false ++ [true]).
Proof.
  intros Hnew.
  assert (isStopped p0 = false) as Hs0.
  { by apply NewWorkerPool_eq in Hnew as [_ ->]. }
  split_and!; [done| | |].
  - destruct (trajectory_flags ls p0) as (k & m & Hfl).
    destruct k as [|k].
    { destruct ls; csimpl in *; rewrite Hs0 in Hfl; by destruct m. }
    exists k, m. split; [done|]. intros p tr Hrun Hst.
    destruct (reach_facts _ _ _ _ _ _ _ _ Hnew Hrun) as (HI & _ & _ & Hsr).
    destruct (stop_returned_inert _ _ HI Hsr Hst) as (Hs & _ & _).
    apply trajectory_last in Hrun.
    apply (f_equal (fmap isStopped)) in Hrun. rewrite <-fmap_last, Hfl in Hrun.
    change (isStopped <$> Some p) with (Some (isStopped p)) in Hrun.
    destruct m as [|m]; [|lia]. exfalso. rewrite app_nil_r, Hs in Hrun.
    apply last_Some_elem_of, elem_of_replicate_inv in Hrun. done.
  - intros p tr l p' ev _ Hstep. split.
    + by eapply step_isStopped_mono.
    + intros Hne. destruct (step_isStopped _ _ _ _ Hstep) as [?|(? & ? & Hs')];
        [done|]. split_and!; try done.
      rewrite Hs' in Hne. by destruct (isStopped p).
  - intros p tr Hrun Hs.
    destruct (reach_facts _ _ _ _ _ _ _ _ Hnew Hrun) as (HI & _).
    pose proof (inv_stop _ HI) as Hst. unfold stop_inv in Hst.
    rewrite ?Hs in Hst.
    destruct (mu p) as [[]|] eqn:Hmu; try (by destruct Hst).
    + exists 2. eexists. split_and!; [lia|lia|done| | |].
      * simpl. unfold Stop. rewrite Hmu, Hs. simpl. done.
      * done.
      * csimpl. unfold Stop. rewrite Hmu, Hs. csimpl. by rewrite Hs.
    + exists 1. eexists. split_and!; [lia|lia|done| | |].
      * simpl. unfold Stop. by rewrite Hmu.
      * done.
      * csimpl. unfold Stop. rewrite Hmu. csimpl. by rewrite Hs.
    + exists 3. eexists. split_and!; [lia|lia|done| | |].
      * simpl. unfold Stop. rewrite Hmu. simpl. rewrite Hs. simpl. done.
      * done.
      * csimpl. unfold Stop. rewrite Hmu. csimpl. rewrite Hs. csimpl.
        by rewrite Hs.
Qed.

(** C8 (P6): with a hook set, the hook calls of a trace are calls of that
    hook, as many as there are completed tasks less the workers that stand
    between the return of [task()] and the call; such a worker's next
    action is the call, whatever else happens meanwhile; so once no worker
    stands there the two numbers agree.  Only tasks accepted by [Submit] are
    ever run.  Without a hook no hook call occurs. *)
Theorem C8_hook_once_per_task parentDone numOfWorkers queueSize hook
    p0 ls p tr :
  NewWorkerPool parentDone numOfWorkers queueSize hook = Done p0 →
  run ls p0 = Done (p, tr) →
  match hook with
  | Some h =>
      hooks tr = replicate (length (ran tr) - hook_pending (workers p)) h ∧
      hook_pending (workers p) ≤ length (ran tr) ∧
      (∀ w pick, workers p !! w = Some WHook →
         step (LWorker w pick) p = Done (set_worker w WSelect p, [EvHook h]))
  | None => hooks tr = []
  end ∧
  (hook_pending (workers p) = 0 → hook ≠ None →
   length (hooks tr) = length (ran tr)) ∧
  ran tr ⊆+ accepted tr.
Proof.
  intros Hnew Hrun.
  destruct (reach_facts _ _ _ _ _ _ _ _ Hnew Hrun) as (HI & HC & [HF HN] & _).
  destruct (run_frame _ _ _ _ Hrun) as (_ & Hh & _).
  apply NewWorkerPool_eq in Hnew as [_ ->]. simpl in Hh. rewrite Hh in *.
  split_and!.
  - destruct hook as [h|].
    + specialize (HN (ltac:(eauto))). split_and!; [|lia|].
      * replace (length (ran tr) - hook_pending (workers p))
          with (length (hooks tr)) by lia.
        symmetry. apply replicate_as_Forall. split; [done|].
        eapply Forall_impl; [done|]. by intros h' [= ->].
      * intros w pick Hw. simpl. unfold process. by rewrite Hw, Hh.
    + by destruct HF.
  - intros Hp Hne. destruct hook; [|done]. specialize (HN (ltac:(eauto))). lia.
  - unfold conserved in HC. rewrite HC. by apply submseteq_inserts_r.
Qed.

(** C9, amended.  [Submit] waits for nothing but the lock: with [mu] free
    the call completes in one action, returning [nil] or one of the two
    errors, and it never panics; while a [Stop] call holds [mu] it cannot
    start.  [Stop] waits for the lock and, holding it, for the wait group:
    it is blocked exactly when it stands at [Wait] and some worker has not
    exited.  So a [Submit] issued while [Stop] waits for a worker that is
    running a task stays blocked as long as that task runs. *)
Theorem C9_submit_waits_only_for_lock parentDone numOfWorkers queueSize
    hook p0 ls p tr task :
  NewWorkerPool parentDone numOfWorkers queueSize hook = Done p0 →
  run ls p0 = Done (p, tr) →
  (mu p = None →
   ∃ err p', step (LSubmit task) p = Done (p', [EvSubmit task err]) ∧
     (err = None ∨ err = Some ErrPoolStopped ∨ err = Some ErrQueueFull)) ∧
  (mu p ≠ None → step (LSubmit task) p = Blocked) ∧
  (step LStop p = Blocked ↔
   mu p = Some SWait ∧ ¬ Forall (λ s, s = WExited) (workers p)) ∧
  (∀ w task', mu p = Some SWait → workers p !! w = Some (WTask task') →
     step LStop p = Blocked ∧ step (LSubmit task) p = Blocked ∧
     ∀ ls1 p1 tr1, run ls1 p = Done (p1, tr1) →
       workers p1 !! w = Some (WTask task') →
       step LStop p1 = Blocked ∧ step (LSubmit task) p1 = Blocked).
Proof.
  intros Hnew Hrun.
  destruct (reach_facts _ _ _ _ _ _ _ _ Hnew Hrun) as (HI & _ & _ & _).
  assert (∀ q w task', Inv q → mu q = Some SWait →
            workers q !! w = Some (WTask task') →
            step LStop q = Blocked ∧ step (LSubmit task) q = Blocked) as Hb.
  { intros q w task' HIq Hmu Hw. split.
    - apply Stop_blocked; [done|]. split; [done|]. intros HF.
      by apply (exited_lookup _ _ _ HF) in Hw.
    - simpl. by rewrite Hmu. }
  split_and!.
  - intros Hmu. destruct (Submit_returns task p HI Hmu) as (err & p' & HS & He).
    exists err, p'. simpl. by rewrite Hmu, HS.
  - intros Hmu. simpl. by destruct (mu p).
  - by apply Stop_blocked.
  - intros w task' Hmu Hw. destruct (Hb p w task' HI Hmu Hw) as [? ?].
    split_and!; [done..|]. intros ls1 p1 tr1 Hr1 Hw1.
    assert (Inv p1) as HI1 by (by eapply run_inv).
    apply (Hb p1 w task' HI1); [|done].
    (* the lock is still held: [Stop] cannot have returned meanwhile *)
    clear -HI Hmu Hr1 Hw1. revert p tr1 HI Hmu Hr1.
    induction ls1 as [|l ls1 IH]; intros p tr1 HI Hmu; simpl.
    + by intros [= <- <-].
    + destruct (step l p) as [[q e1]| |] eqn:Hs; [|done..].
      destruct (run ls1 q) as [[q2 e2]| |] eqn:Hr; [|done..].
      intros [= <- <-]. pose proof (step_inv _ _ _ _ HI Hs) as HIq.
      destruct (step_mu _ _ _ _ Hs) as [Hq| ->].
      * eapply IH; [done| |done]. congruence.
      * simpl in Hs. unfold Stop in Hs. rewrite Hmu in Hs.
        destruct (workerWaitGroup p) eqn:Hn; [|done]. simplify_eq.
        exfalso. rewrite (inv_wg _ HI) in Hn. apply live_zero_exited in Hn.
        destruct (exited_run _ _ _ _ HIq Hn Hr) as (Hws & _). simpl in Hws.
        rewrite Hws in Hw1. by apply (exited_lookup _ _ _ Hn) in Hw1.
Qed.

(** C10, as the code has it: only the assignment in [Stop] changes the
    flag.  Cancelling the parent context leaves it as it is, closes the Done
    channel for good and wakes the blocked workers; from then on no worker
    blocks again, and all of them can run to their end whatever the other
    goroutines do, none of that touching the flag.  A worker at its select
    leaves when the queue is empty or when the select takes the Done case;
    with a task in the queue the select may as well take the task, which
    the worker then runs.  In every later state in which the flag is still
    false, [Submit] on a queue with room appends the task and returns
    [nil]; and once the workers are gone nothing is run any more: the
    accepted tasks stay in the queue. *)
Theorem C10_parent_cancel_keeps_pool_open parentDone numOfWorkers queueSize
    hook p0 ls p tr :
  NewWorkerPool parentDone numOfWorkers queueSize hook = Done p0 →
  run ls p0 = Done (p, tr) →
  (∀ l p' ev, step l p = Done (p', ev) → isStopped p' ≠ isStopped p →
     l = LStop) ∧
  ∃ pc,
    step LCancelParent p = Done (pc, []) ∧
    isStopped pc = isStopped p ∧ ctxDone pc = true ∧
    ∀ ls1 p1 tr1, run ls1 pc = Done (p1, tr1) →
      ctxDone p1 = true ∧
      Forall (λ s, s ≠ WParked) (workers p1) ∧
      (∃ pe tre,
         run (drain_sched (workers p1)) p1 = Done (pe, tre) ∧
         Forall (λ s, s = WExited) (workers pe) ∧
         isStopped pe = isStopped p1 ∧ taskQueue pe = taskQueue p1) ∧
      (isStopped p1 = false → ∀ task,
         length (taskQueue p1) < taskQueueCap p1 →
         Submit task p1 =
           Done (None, set_taskQueue (taskQueue p1 ++ [task]) p1)) ∧
      (Forall (λ s, s = WExited) (workers p1) →
       ∀ ls2 p2 tr2, run ls2 p1 = Done (p2, tr2) →
         ran tr2 = [] ∧ taskQueue p1 `prefix_of` taskQueue p2) ∧
      (∀ w pick, workers p1 !! w = Some WSelect →
         taskQueue p1 = [] ∨ pick = PickDone →
         step (LWorker w pick) p1 = Done (set_worker w WExiting p1, [])) ∧
      (∀ w task q, workers p1 !! w = Some WSelect →
         taskQueue p1 = task :: q →
         step (LWorker w PickRecv) p1 =
           Done (set_worker w (WTask task) (set_taskQueue q p1), [])).
Proof.
  intros Hnew Hrun.
  destruct (reach_facts _ _ _ _ _ _ _ _ Hnew Hrun) as (HI & _ & _ & _).
  split.
  { intros l p' ev Hs Hne.
    by destruct (step_isStopped _ _ _ _ Hs) as [?|(? & _)]. }
  eexists. split_and!; [done..|]. intros ls1 p1 tr1 Hr1.
  assert (Inv p1) as HI1.
  { eapply run_inv; [|done]. by eapply (step_inv LCancelParent). }
  assert (ctxDone p1 = true) as Hd1 by (by eapply run_ctxDone_mono).
  destruct (done_no_parked p1 HI1 Hd1) as [Hrq Hnp].
  split_and!; [done..| | | | |].
  - destruct (drain_run p1 HI1 Hd1) as (pe & tre & Hre & Hf & He).
    exists pe, tre. split_and!; [done..| |].
    + by apply (f_equal isStopped) in Hf.
    + by apply (f_equal taskQueue) in Hf.
  - intros Hs task Hlt. unfold Submit, chansend_nb.
    rewrite Hs, (open_when_not_stopped p1 HI1 Hs), Hrq.
    by destruct (Nat.ltb_spec (length (taskQueue p1)) (taskQueueCap p1));
      [|lia].
  - intros HF ls2 p2 tr2 Hr2.
    by destruct (exited_run _ _ _ _ HI1 HF Hr2) as (_ & ? & _ & ?).
  - intros w pick Hw Hq. simpl. unfold process. rewrite Hw.
    unfold process_select, process_recv, process_return. rewrite Hd1.
    destruct Hq as [Hq| ->].
    + rewrite Hq. by destruct (taskQueueClosed p1), pick.
    + by destruct (taskQueue p1), (taskQueueClosed p1).
  - intros w task q Hw Hq. simpl. unfold process. rewrite Hw.
    unfold process_select, process_recv. by rewrite Hd1, Hq.
Qed.

End facts.

(** * The scenarios, checked *)

Example race_run :
  NewWorkerPool false 1 1 None = Done race_p0 ∧
  run race_sched race_p0 = Done (race_p, race_tr).
Proof. split; reflexivity. Qed.

Example handoff_run :
  NewWorkerPool false 1 0 None = Done handoff_p0 ∧
  run [LWorker 0 PickRecv] handoff_p0 = Done (handoff_p, []).
Proof. split; reflexivity. Qed.

Example idle_run : NewWorkerPool false 0 1 None = Done idle_p0.
Proof. reflexivity. Qed.

Example busy_run :
  NewWorkerPool false 1 1 (Some 1) = Done busy_p0 ∧
  run busy_sched busy_p0 = Done (busy_p, [EvSubmit 7 None]) ∧
  run busy_rest busy_p =
    Done (busy_end, [EvTask 7; EvHook 1; EvExit 0; EvStop None]).
Proof. split_and!; reflexivity. Qed.

(** * The claims on the scenarios *)

Lemma C1_submit_after_stop_witness :
  NewWorkerPool false 1 1 None = Done race_p0 ∧
  run race_sched race_p0 = Done (race_p, race_tr) ∧
  stops race_tr ≠ [] ∧
  Submit 9 race_p = Done (Some ErrPoolStopped, race_p).
Proof.
  split_and!; [reflexivity|reflexivity|discriminate|].
  destruct (C1_submit_after_stop (platform := linux_amd64) false 1 1 None race_p0 race_sched race_p
              race_tr 9 ltac:(reflexivity) ltac:(reflexivity)) as (Hsubmit & _); [|exact Hsubmit].
  simpl. discriminate.
Defined.

(** With an unbuffered queue and a worker waiting in its select, the queue
    holds exactly its capacity of tasks, none, and [Submit] returns [nil]:
    the task goes to the worker. *)
Lemma C2_full_queue_accepts :
  NewWorkerPool false 1 0 None = Done handoff_p0 ∧
  run [LWorker 0 PickRecv] handoff_p0 = Done (handoff_p, []) ∧
  isStopped handoff_p = false ∧
  length (taskQueue handoff_p) = taskQueueCap handoff_p ∧
  Submit 7 handoff_p =
    Done (None, mkPool [] 0 false [] 1 None None false false [WTask 7]) ∧
  Submit 7 handoff_p ≠ Done (Some ErrQueueFull, handoff_p).
Proof. split_and!; try reflexivity. discriminate. Qed.

Lemma C2_submit_backpressure_witness :
  NewWorkerPool false 1 0 None = Done handoff_p0 ∧
  run [LWorker 0 PickRecv] handoff_p0 = Done (handoff_p, []) ∧
  taskQueueCap handoff_p = 0 ∧
  length (taskQueue handoff_p) ≤ taskQueueCap handoff_p.
Proof.
  destruct (C2_submit_backpressure (platform := linux_amd64) false 1 0 None handoff_p0
              [LWorker 0 PickRecv] handoff_p [] 7 ltac:(reflexivity) ltac:(reflexivity))
    as (Hcap & Hlen & _).
  split_and!; [reflexivity|reflexivity|exact Hcap|exact Hlen].
Defined.

Lemma C3_stop_waits_for_workers_witness :
  NewWorkerPool false 1 1 None = Done race_p0 ∧
  run race_sched race_p0 = Done (race_p, race_tr) ∧
  length (workers race_p) = 1.
Proof.
  split_and!; [reflexivity|reflexivity|].
  exact (proj1 (C3_stop_waits_for_workers (platform := linux_amd64) false 1 1 None race_p0 race_sched
                  race_p race_tr ltac:(reflexivity) ltac:(reflexivity))).
Defined.

Lemma race_p_inv : Inv race_p.
Proof.
  destruct race_run as [Hnew Hrun]. eapply run_inv; [|exact Hrun].
  by eapply NewWorkerPool_inv.
Qed.

(** C4: a run of the code in which [Submit] returned [nil] for task 7 and
    the task is never run.  The pool has one worker and room for one task;
    [Stop] is called before the worker has looked at the queue; [Stop]
    cancels the context before it closes the queue, the select of the worker
    finds both cases ready and takes the Done case, the worker exits and
    [Stop] returns.  Task 7 is left in the queue, and whatever happens
    afterwards it stays there: no task is run in any continuation. *)
Theorem C4_accepted_task_left_in_queue :
  NewWorkerPool false 1 1 None = Done race_p0 ∧
  run race_sched race_p0 = Done (race_p, race_tr) ∧
  accepted race_tr = [7] ∧ ran race_tr = [] ∧ stops race_tr = [None] ∧
  taskQueue race_p = [7] ∧ workers race_p = [WExited] ∧
  ∀ ls p' tr', run ls race_p = Done (p', tr') →
    ran (race_tr ++ tr') = [] ∧ taskQueue p' = [7] ∧
    workers p' = [WExited].
Proof.
  split_and!; try reflexivity. intros ls p' tr' Hrun.
  assert (inert race_p) as Hin.
  { split_and!; [done|by repeat constructor|by left]. }
  destruct (inert_run ls race_p p' tr' race_p_inv Hin Hrun) as (_ & Hp & _).
  destruct (exited_run ls race_p p' tr' race_p_inv) as (Hw & Hr & _);
    [by repeat constructor|done|].
  rewrite ran_app, Hr. split_and!; [done| |done].
  by apply (f_equal taskQueue) in Hp.
Qed.

(** [NewWorkerPool] returns a pool for zero and for negative worker
    counts, and that pool accepts a task. *)
Lemma C5_no_workers_accepted :
  NewWorkerPool false 0 1 None = Done idle_p0 ∧
  NewWorkerPool false (-3) 1 None = Done idle_p0 ∧
  isStopped idle_p0 = false ∧
  step (LSubmit 7) idle_p0 =
    Done (mkPool [7] 1 false [] 0 None None false false [],
          [EvSubmit 7 None]).
Proof. split_and!; reflexivity. Qed.

Lemma C5_no_validation_in_constructor_witness :
  (0 ≤ 0)%Z ∧
  NewWorkerPool (Func := nat) false 0 (-1) None = Panic ∧
  NewWorkerPool (Func := nat) false 0 (2 ^ 62) None = Panic ∧
  ∃ p0, NewWorkerPool (Func := nat) false 0 1 None = Done p0 ∧
        workers p0 = [] ∧ isStopped p0 = false.
Proof.
  split; [lia|].
  destruct (C5_no_validation_in_constructor (Func := nat)
              (platform := linux_amd64) false 0 (-1) None ltac:(lia))
    as (Hneg & _).
  destruct (C5_no_validation_in_constructor (Func := nat)
              (platform := linux_amd64) false 0 (2 ^ 62) None ltac:(lia))
    as (Hbig & _).
  destruct (C5_no_validation_in_constructor (Func := nat)
              (platform := linux_amd64) false 0 1 None ltac:(lia))
    as (_ & Hok & _).
  split_and!.
  - apply Hneg. left. lia.
  - apply Hbig. right. reflexivity.
  - destruct Hok as (p0 & Hp0 & Hw & Hs & _).
    + split; [lia|]. discriminate.
    + exists p0. split_and!; assumption.
Defined.

Lemma C6_stop_idempotent_witness :
  NewWorkerPool false 1 1 None = Done race_p0 ∧
  run race_sched race_p0 = Done (race_p, race_tr) ∧
  Forall (λ err, err = None) (stops race_tr).
Proof.
  split_and!; [reflexivity|reflexivity|].
  exact (proj1 (C6_stop_idempotent (platform := linux_amd64) false 1 1 None race_p0 race_sched race_p
                  race_tr ltac:(reflexivity) ltac:(reflexivity))).
Defined.

Lemma C7_flag_monotonic_witness :
  NewWorkerPool false 1 1 (Some 1) = Done busy_p0 ∧
  run [LSubmit 7] busy_p0 = Done (queued_p, [EvSubmit 7 None]) ∧
  isStopped queued_p = false ∧
  ∃ k p', 1 ≤ k ≤ 3 ∧ (mu queued_p = None → k = 3) ∧
    run (replicate k LStop) queued_p = Done (p', []) ∧
    isStopped p' = true ∧
    isStopped <$> trajectory (replicate k LStop) queued_p =
      replicate k false ++ [true].
Proof.
  split_and!; [reflexivity..|].
  exact (proj2 (proj2 (proj2
    (C7_flag_monotonic (platform := linux_amd64) false 1 1 (Some 1)
       busy_p0 [LSubmit 7] ltac:(reflexivity))))
    queued_p [EvSubmit 7 None] ltac:(reflexivity) ltac:(reflexivity)).
Defined.

Lemma C8_hook_once_per_task_witness :
  NewWorkerPool false 1 1 (Some 1) = Done busy_p0 ∧
  run (busy_sched ++ busy_rest) busy_p0 =
    Done (busy_end,
          [EvSubmit 7 None; EvTask 7; EvHook 1; EvExit 0; EvStop None]) ∧
  length (hooks [EvSubmit 7 None; EvTask 7; EvHook 1; EvExit 0;
                 EvStop None]) =
  length (ran [EvSubmit 7 None; EvTask 7; EvHook 1; EvExit 0;
               EvStop None]).
Proof.
  split_and!; [reflexivity|reflexivity|].
  destruct (C8_hook_once_per_task (platform := linux_amd64) false 1 1 (Some 1) busy_p0
              (busy_sched ++ busy_rest) busy_end _ ltac:(reflexivity) ltac:(reflexivity))
    as (_ & Hcount & _).
  apply Hcount; [reflexivity|discriminate].
Defined.

(** [Stop] stands at [Wait], holding the lock, while the worker runs task
    7: [Stop] is suspended there, not at the lock, and a [Submit] cannot
    start.  Both go on once the task has returned and the worker has
    exited. *)
Lemma C9_submit_blocked_behind_stop :
  NewWorkerPool false 1 1 (Some 1) = Done busy_p0 ∧
  run busy_sched busy_p0 = Done (busy_p, [EvSubmit 7 None]) ∧
  mu busy_p = Some SWait ∧
  step LStop busy_p = Blocked ∧
  step (LSubmit 8) busy_p = Blocked ∧
  run (busy_rest ++ [LSubmit 8]) busy_p =
    Done (busy_end,
          [EvTask 7; EvHook 1; EvExit 0; EvStop None;
           EvSubmit 8 (Some ErrPoolStopped)]).
Proof. split_and!; reflexivity. Qed.

Lemma C9_submit_waits_only_for_lock_witness :
  NewWorkerPool false 1 1 (Some 1) = Done busy_p0 ∧
  run busy_sched busy_p0 = Done (busy_p, [EvSubmit 7 None]) ∧
  step (LSubmit 8) busy_p = Blocked.
Proof.
  split_and!; [reflexivity|reflexivity|].
  destruct (C9_submit_waits_only_for_lock (platform := linux_amd64) false 1 1 (Some 1) busy_p0
              busy_sched busy_p [EvSubmit 7 None] 8 ltac:(reflexivity) ltac:(reflexivity))
    as (_ & Hlocked & _).
  apply Hlocked. simpl. discriminate.
Defined.

(** A task submitted after the cancellation and run all the same: the
    worker has not reached its select when the parent context is cancelled;
    task 7 is then accepted, and the select, finding both cases ready,
    takes the task. *)
Lemma C10_task_run_after_cancel :
  NewWorkerPool false 1 1 None = Done race_p0 ∧
  run [LCancelParent; LSubmit 7; LWorker 0 PickRecv; LWorker 0 PickRecv]
      race_p0 =
    Done (mkPool [] 1 false [] 1 None None false true [WHook],
          [EvSubmit 7 None; EvTask 7]) ∧
  ran [EvSubmit 7 None; EvTask 7] = [7].
Proof. split_and!; reflexivity. Qed.

Lemma C10_parent_cancel_keeps_pool_open_witness :
  NewWorkerPool false 1 1 (Some 1) = Done busy_p0 ∧
  run [LSubmit 7] busy_p0 = Done (queued_p, [EvSubmit 7 None]) ∧
  ∃ pc,
    step LCancelParent queued_p = Done (pc, []) ∧
    isStopped pc = false ∧ ctxDone pc = true ∧
    step (LWorker 0 PickDone) pc = Done (set_worker 0 WExiting pc, []) ∧
    step (LWorker 0 PickRecv) pc =
      Done (set_worker 0 (WTask 7) (set_taskQueue [] pc), []).
Proof.
  split_and!; [reflexivity|reflexivity|].
  destruct (C10_parent_cancel_keeps_pool_open (platform := linux_amd64)
              false 1 1 (Some 1) busy_p0 [LSubmit 7] queued_p
              [EvSubmit 7 None] ltac:(reflexivity) ltac:(reflexivity))
    as (_ & pc & Hc & Hs & Hd & Hall).
  exists pc. split_and!; [exact Hc|exact Hs|exact Hd| |].
  - refine (proj1 (proj2 (proj2 (proj2 (proj2 (proj2
             (Hall [] pc [] eq_refl)))))) 0 PickDone _ (or_intror eq_refl)).
    injection Hc as <-. reflexivity.
  - refine (proj2 (proj2 (proj2 (proj2 (proj2 (proj2
             (Hall [] pc [] eq_refl)))))) 0 7 [] _ _).
    + injection Hc as <-. reflexivity.
    + injection Hc as <-. reflexivity.
Defined.

(** * Further properties of the pool *)

(** Every action taken, case by case. *)
Ltac action_cases H :=
  unfold step, Submit, chansend_nb, Stop, process, process_select,
    process_recv, process_return in H;
  repeat case_match; simplify_eq/=.

Section more_facts.
Context {Func : Type} {platform : Platform}.
Implicit Types (p : WorkerPool Func) (ws : list (WorkerState Func))
  (s : WorkerState Func) (w : nat) (tr : list (Event Func))
  (ls : list (Label Func)).

(** ** Shutdown order *)

Lemma stop_inv_closed p :
  Inv p → taskQueueClosed p = true → isStopped p = true ∧ ctxDone p = true.
Proof.
  intros [_ _ _ _ _ Hst] Hc. unfold stop_inv in Hst.
  destruct (mu p) as [[]|], (isStopped p); intuition congruence.
Qed.

Lemma step_closed_mono l p p' ev :
  step l p = Done (p', ev) → taskQueueClosed p = true →
  taskQueueClosed p' = true.
Proof. intros Hs Hc. action_cases Hs; done || congruence. Qed.

(** ** Exits *)

Lemma exited_insert_other ws w w' s s' :
  ws !! w = Some s → s ≠ WExited → ws !! w' = Some WExited →
  <[w := s']> ws !! w' = Some WExited.
Proof.
  intros Hw Hs Hw'. rewrite list_lookup_insert_ne; [done|].
  intros ->. congruence.
Qed.

Lemma step_exits_once l p tr p' ev :
  Inv p → exits_once p tr → step l p = Done (p', ev) →
  exits_once p' (tr ++ ev).
Proof.
  intros HI [Hnd Hex] Hs. unfold exits_once. rewrite exits_app.
  action_cases Hs; rewrite ?app_nil_r.
  all: try match goal with H : taskQueueRecvq _ = _ :: _ |- _ =>
      destruct (recvq_head_parked _ _ _ HI H) as (Hw & _ & _) end.
  all: try (split; [done|]; intros w' Hw'; specialize (Hex _ Hw');
            first [done
                  |by eapply exited_insert_other
                  |by rewrite list_lookup_fmap, Hex]).
  split.
  - apply NoDup_app. split_and!; [done| |apply NoDup_singleton].
    intros w' Hw' ->%list_elem_of_singleton. apply Hex in Hw'. congruence.
  - intros w' [Hw'| ->%list_elem_of_singleton]%elem_of_app.
    + eapply exited_insert_other; eauto.
    + apply list_lookup_insert_eq. by eapply lookup_lt_Some.
Qed.

(** ** Order of the queue *)

(** The queue holds the tasks accepted last, in the order of acceptance. *)
Lemma step_queue_suffix l p tr p' ev :
  Inv p → taskQueue p `suffix_of` accepted tr → step l p = Done (p', ev) →
  taskQueue p' `suffix_of` accepted (tr ++ ev).
Proof.
  intros HI Hsuf Hs. rewrite accepted_app. action_cases Hs;
    csimpl; rewrite ?app_nil_r; try done.
  all: try match goal with H : taskQueueRecvq _ = _ :: _ |- _ =>
      destruct (recvq_head_parked _ _ _ HI H) as (_ & Hq & _) end.
  all: first [by apply suffix_app|apply suffix_nil
             |by eapply suffix_cons_l|idtac].
  all: match goal with H : taskQueue _ = _ |- _ =>
      rewrite H; first [apply suffix_nil|done] end.
Qed.

(** With one worker the tasks accepted are, in this order: those run, the
    one being run, those queued. *)
Lemma step_single_worker_order l p tr p' ev :
  Inv p → length (workers p) = 1 →
  accepted tr = ran tr ++ running (workers p) ++ taskQueue p →
  step l p = Done (p', ev) →
  accepted (tr ++ ev) = ran (tr ++ ev) ++ running (workers p') ++ taskQueue p'.
Proof.
  intros HI Hlen Hacc Hs. rewrite accepted_app, ran_app, Hacc.
  destruct (workers p) as [|s0 [|]] eqn:Hws; try done. clear Hacc.
  action_cases Hs; rewrite ?running_wake.
  all: try match goal with H : taskQueueRecvq _ = _ :: _ |- _ =>
      destruct (recvq_head_parked _ _ _ HI H) as (Hw & Hq & _);
      rewrite Hws in Hw; rewrite ?Hq end.
  all: rewrite ?Hws in *.
  all: repeat match goal with
         | H : [_] !! ?w = Some _ |- _ => destruct w; simplify_eq/=
         end.
  all: try match goal with H : taskQueue _ = _ |- _ => rewrite ?H end.
  all: unfold running; csimpl; rewrite ?app_nil_r, <-?(assoc_L (++)).
  all: done.
Qed.

(** ** Workers stay in their loop until the shutdown *)

Lemma step_looping l p p' ev :
  Inv p →
  (ctxDone p = false → Forall looping (workers p)) →
  step l p = Done (p', ev) →
  ctxDone p' = false → Forall looping (workers p').
Proof.
  intros HI Hlp Hs Hd'.
  assert (ctxDone p = false) as Hd.
  { destruct (ctxDone p) eqn:Hd; [|done].
    by rewrite (step_ctxDone_mono _ _ _ _ Hs Hd) in Hd'. }
  specialize (Hlp Hd).
  assert (taskQueueClosed p = false) as Hc.
  { destruct (taskQueueClosed p) eqn:Hc; [|done].
    destruct (stop_inv_closed p HI Hc). congruence. }
  assert (∀ w s, looping s → Forall looping (<[w := s]> (workers p))) as Hin.
  { intros w s Hs'. apply Forall_insert; done. }
  action_cases Hs; try done; try congruence; try by apply Hin.
  { pose proof (inv_stop _ HI) as Hst. unfold stop_inv in Hst.
    match goal with H : mu _ = _ |- _ => rewrite H in Hst end.
    destruct Hst as (_ & ? & _). congruence. }
  all: rewrite Forall_forall in Hlp.
  all: match goal with H : workers _ !! _ = Some _ |- _ =>
         apply list_elem_of_lookup_2, Hlp in H; done end.
Qed.

Lemma reach_looping parentDone numOfWorkers queueSize hook
    (p0 : WorkerPool Func) ls p tr :
  NewWorkerPool parentDone numOfWorkers queueSize hook = Done p0 →
  run ls p0 = Done (p, tr) →
  ctxDone p = false → Forall looping (workers p).
Proof.
  intros Hnew Hrun. pose proof (NewWorkerPool_inv _ _ _ _ _ Hnew) as HI.
  apply NewWorkerPool_eq in Hnew as [_ ->].
  refine (run_ind_trace
            (λ p _, ctxDone p = false → Forall looping (workers p))
            _ ls _ [] p tr HI _ Hrun).
  - intros. by eapply step_looping.
  - intros _. simpl. by apply Forall_replicate.
Qed.

(** ** Runs without [Stop], without cancellation *)

Lemma run_without_stop ls p p' tr :
  run ls p = Done (p', tr) → LStop ∉ ls →
  isStopped p' = isStopped p ∧ mu p' = mu p.
Proof.
  revert p tr. induction ls as [|l ls IH]; intros p tr; simpl.
  - by intros [= <- <-].
  - destruct (step l p) as [[p1 e1]| |] eqn:Hs; [|done..].
    destruct (run ls p1) as [[p2 e2]| |] eqn:Hr; [|done..].
    intros [= <- <-] Hnin. apply not_elem_of_cons in Hnin as [Hl Hnin].
    destruct (IH _ _ Hr Hnin) as [-> ->].
    destruct (step_isStopped _ _ _ _ Hs) as [?|[? _]]; [|done].
    by destruct (step_mu _ _ _ _ Hs).
Qed.

Lemma step_without_cancel l p p' ev :
  step l p = Done (p', ev) → l ≠ LStop → l ≠ LCancelParent →
  ctxDone p' = ctxDone p.
Proof. intros Hs H1 H2. by action_cases Hs. Qed.

Lemma run_without_cancel ls p p' tr :
  run ls p = Done (p', tr) → LStop ∉ ls → LCancelParent ∉ ls →
  ctxDone p' = ctxDone p.
Proof.
  revert p tr. induction ls as [|l ls IH]; intros p tr; simpl.
  - by intros [= <- <-].
  - destruct (step l p) as [[p1 e1]| |] eqn:Hs; [|done..].
    destruct (run ls p1) as [[p2 e2]| |] eqn:Hr; [|done..].
    intros [= <- <-] [? ?]%not_elem_of_cons [? ?]%not_elem_of_cons.
    rewrite (IH _ _ Hr) by done. by eapply step_without_cancel.
Qed.

Lemma step_ErrPoolStopped l p p' ev task :
  step l p = Done (p', ev) → EvSubmit task (Some ErrPoolStopped) ∈ ev →
  isStopped p = true.
Proof.
  intros Hs Hin. action_cases Hs;
    repeat (apply elem_of_cons in Hin as [?|Hin]; simplify_eq);
    try done; by apply elem_of_nil in Hin.
Qed.

Lemma run_ErrPoolStopped ls p p' tr task :
  run ls p = Done (p', tr) → EvSubmit task (Some ErrPoolStopped) ∈ tr →
  isStopped p' = true.
Proof.
  revert p tr. induction ls as [|l ls IH]; intros p tr; simpl.
  - intros [= <- <-] Hin. by apply elem_of_nil in Hin.
  - destruct (step l p) as [[p1 e1]| |] eqn:Hs; [|done..].
    destruct (run ls p1) as [[p2 e2]| |] eqn:Hr; [|done..].
    intros [= <- <-] [Hin|Hin]%elem_of_app.
    + eapply run_isStopped_mono; [done|]. eapply step_isStopped_mono; [done|].
      by eapply step_ErrPoolStopped.
    + by eapply IH.
Qed.

(** * Further properties, stated *)

(** X1: the pool's own operations never panic, whatever the order in which
    callers, workers and the parent context act.  No schedule ends in a
    panic, and in every state reached: the queue is open as long as the
    flag is false, so that [Submit] never sends on a closed channel; [Stop]
    arrives at its [close] with the queue still open, so that it never
    closes it twice; and a worker about to execute [Done()] finds the wait
    group positive.  What a task or a hook does when it is called -- a nil
    task or one that panics included -- is not the pool's and not part of
    the statement: here a call returns. *)
Theorem X1_pool_operations_never_panic parentDone numOfWorkers queueSize hook
    (p0 : WorkerPool Func) ls :
  NewWorkerPool parentDone numOfWorkers queueSize hook = Done p0 →
  run ls p0 ≠ Panic ∧
  ∀ p tr, run ls p0 = Done (p, tr) →
    (isStopped p = false → taskQueueClosed p = false) ∧
    (∀ task, Submit task p ≠ Panic) ∧
    (mu p = Some SClose → taskQueueClosed p = false) ∧
    Stop p ≠ Panic ∧
    (∀ w, workers p !! w = Some WExiting → 0 < workerWaitGroup p) ∧
    (∀ w pick, process w pick p ≠ Panic).
Proof.
  intros Hnew. pose proof (NewWorkerPool_inv _ _ _ _ _ Hnew) as HI0.
  split; [by apply run_no_panic|]. intros p tr Hrun.
  pose proof (run_inv _ _ _ _ HI0 Hrun) as HI.
  pose proof (open_when_not_stopped p HI) as Hopen.
  split_and!.
  - done.
  - intros task. unfold Submit, chansend_nb.
    destruct (isStopped p); [done|]. rewrite Hopen by done.
    by repeat case_match.
  - intros Hmu. pose proof (inv_stop _ HI) as Hst. unfold stop_inv in Hst.
    rewrite Hmu in Hst. by destruct Hst as (_ & _ & ?).
  - by apply Stop_no_panic.
  - intros w Hw. pose proof (process_no_panic w PickDone p HI) as Hp.
    unfold process in Hp. rewrite Hw in Hp.
    destruct (workerWaitGroup p); [done|lia].
  - intros w pick. by apply process_no_panic.
Qed.

(** X2: the tasks for which [Submit] has returned [nil] are, counted with
    repetitions, exactly the tasks that have been run to completion, those
    being run by a worker, and those waiting in the queue; so no accepted
    task is duplicated, and none is run that was not accepted. *)
Theorem X2_tasks_conserved parentDone numOfWorkers queueSize hook
    (p0 : WorkerPool Func) ls p tr :
  NewWorkerPool parentDone numOfWorkers queueSize hook = Done p0 →
  run ls p0 = Done (p, tr) →
  accepted tr ≡ₚ ran tr ++ running (workers p) ++ taskQueue p ∧
  length (ran tr) + length (running (workers p)) + length (taskQueue p) =
    length (accepted tr).
Proof.
  intros Hnew Hrun.
  destruct (reach_facts _ _ _ _ _ _ _ _ Hnew Hrun) as (_ & HC & _).
  split; [done|]. unfold conserved in HC. rewrite HC, !length_app. lia.
Qed.

(** X3: the queue is first in, first out: at every moment it holds the
    tasks accepted last, in the order in which they were accepted. *)
Theorem X3_queue_is_fifo parentDone numOfWorkers queueSize hook
    (p0 : WorkerPool Func) ls p tr :
  NewWorkerPool parentDone numOfWorkers queueSize hook = Done p0 →
  run ls p0 = Done (p, tr) →
  taskQueue p `suffix_of` accepted tr.
Proof.
  intros Hnew Hrun. pose proof (NewWorkerPool_inv _ _ _ _ _ Hnew) as HI.
  apply NewWorkerPool_eq in Hnew as [_ ->].
  refine (run_ind_trace (λ p tr, taskQueue p `suffix_of` accepted tr)
            _ ls _ [] p tr HI _ Hrun).
  - intros. by eapply step_queue_suffix.
  - done.
Qed.

(** X4: with a single worker the tasks are run in the order in which they
    were accepted: the accepted tasks are, in this order, those completed,
    the one in the worker's hands, and those queued. *)
Theorem X4_single_worker_runs_in_order parentDone queueSize hook
    (p0 : WorkerPool Func) ls p tr :
  NewWorkerPool parentDone 1 queueSize hook = Done p0 →
  run ls p0 = Done (p, tr) →
  accepted tr = ran tr ++ running (workers p) ++ taskQueue p ∧
  ran tr `prefix_of` accepted tr.
Proof.
  intros Hnew Hrun. pose proof (NewWorkerPool_inv _ _ _ _ _ Hnew) as HI.
  assert (accepted tr = ran tr ++ running (workers p) ++ taskQueue p) as Heq.
  { destruct (NewWorkerPool_eq _ _ _ _ _ Hnew) as [_ Hp0].
    refine (proj2 (run_ind_trace
              (λ p tr, length (workers p) = 1 ∧
                 accepted tr = ran tr ++ running (workers p) ++ taskQueue p)
              _ ls _ [] p tr HI _ Hrun)).
    - intros l q tr1 q' ev HIq [Hlen Hacc] Hs. split.
      + destruct (step_frame _ _ _ _ Hs) as (_ & _ & ->). done.
      + by eapply step_single_worker_order.
    - by subst. }
  split; [done|]. rewrite Heq. by apply prefix_app_r.
Qed.

(** X5 (I5): the capacity of the queue, the hook and the number of workers
    are those given to [NewWorkerPool] and never change. *)
Theorem X5_shape_is_fixed parentDone numOfWorkers queueSize hook
    (p0 : WorkerPool Func) ls p tr :
  NewWorkerPool parentDone numOfWorkers queueSize hook = Done p0 →
  run ls p0 = Done (p, tr) →
  taskQueueCap p = Z.to_nat queueSize ∧ afterTaskHook p = hook ∧
  length (workers p) = Z.to_nat numOfWorkers.
Proof.
  intros Hnew Hrun. destruct (run_frame _ _ _ _ Hrun) as (-> & -> & ->).
  apply NewWorkerPool_eq in Hnew as [_ ->]. simpl.
  by rewrite length_replicate.
Qed.


(** X7: [ErrPoolStopped] means that [Stop] has been called: in a run in
    which no [Stop] call has taken a step the flag is false and no [Submit]
    has returned [ErrPoolStopped]; and whenever a [Submit] has returned it,
    the flag is set. *)
Theorem X7_ErrPoolStopped_only_after_Stop parentDone numOfWorkers queueSize
    hook (p0 : WorkerPool Func) ls p tr :
  NewWorkerPool parentDone numOfWorkers queueSize hook = Done p0 →
  run ls p0 = Done (p, tr) →
  (∀ task, EvSubmit task (Some ErrPoolStopped) ∈ tr → isStopped p = true) ∧
  (LStop ∉ ls →
   isStopped p = false ∧ mu p = None ∧
   ∀ task, EvSubmit task (Some ErrPoolStopped) ∉ tr).
Proof.
  intros Hnew Hrun. split.
  - intros task. by eapply run_ErrPoolStopped.
  - intros Hnin. destruct (run_without_stop _ _ _ _ Hrun Hnin) as [Hs Hmu].
    apply NewWorkerPool_eq in Hnew as [_ ->]. simpl in *.
    split_and!; [done..|]. intros task Hin.
    apply (run_ErrPoolStopped _ _ _ _ _ Hrun) in Hin. congruence.
Qed.

(** X8: no task waits in the queue while a worker sleeps.  As long as the
    context is not done, every worker is in its loop; if a task is in the
    queue no worker is blocked in its select; a worker that evaluates its
    select then takes the task at the head of the queue, whatever the
    choice among the ready cases, and with the queue empty it blocks. *)
Theorem X8_queued_task_finds_worker parentDone numOfWorkers queueSize
    hook (p0 : WorkerPool Func) ls p tr :
  NewWorkerPool parentDone numOfWorkers queueSize hook = Done p0 →
  run ls p0 = Done (p, tr) →
  ctxDone p = false →
  Forall looping (workers p) ∧
  (taskQueue p ≠ [] → Forall (λ s, s ≠ WParked) (workers p)) ∧
  (∀ w pick task q,
     workers p !! w = Some WSelect → taskQueue p = task :: q →
     step (LWorker w pick) p =
       Done (set_worker w (WTask task) (set_taskQueue q p), [])) ∧
  (∀ w pick,
     workers p !! w = Some WSelect → taskQueue p = [] →
     step (LWorker w pick) p =
       Done (set_taskQueueRecvq (taskQueueRecvq p ++ [w])
               (set_worker w WParked p), [])).
Proof.
  intros Hnew Hrun Hd.
  destruct (reach_facts _ _ _ _ _ _ _ _ Hnew Hrun) as (HI & _ & _ & _).
  assert (taskQueueClosed p = false) as Hc.
  { destruct (taskQueueClosed p) eqn:Hc; [|done].
    destruct (stop_inv_closed p HI Hc). congruence. }
  split_and!.
  - by eapply reach_looping.
  - intros Hq. apply Forall_forall. intros s Hin ->.
    apply list_elem_of_lookup_1 in Hin as [w Hw].
    by destruct (inv_parked _ HI w Hw) as (_ & ? & _).
  - intros w pick task q Hw Hq. simpl. unfold process. rewrite Hw.
    unfold process_select, process_recv. by rewrite Hd, Hq.
  - intros w pick Hw Hq. simpl. unfold process. rewrite Hw.
    unfold process_select. by rewrite Hd, Hq, Hc.
Qed.

(** X9: the wait group counts the workers that have not executed their
    [Done()]: its counter is the number of workers not yet finished, and
    together with the [Done()] calls made so far it gives the number of
    workers started; no worker executes [Done()] twice. *)
Theorem X9_wait_group_counts_workers parentDone numOfWorkers queueSize hook
    (p0 : WorkerPool Func) ls p tr :
  NewWorkerPool parentDone numOfWorkers queueSize hook = Done p0 →
  run ls p0 = Done (p, tr) →
  workerWaitGroup p = live (workers p) ∧
  workerWaitGroup p + length (exits tr) = Z.to_nat numOfWorkers ∧
  NoDup (exits tr) ∧
  ∀ w, w ∈ exits tr → workers p !! w = Some WExited.
Proof.
  intros Hnew Hrun.
  destruct (reach_facts _ _ _ _ _ _ _ _ Hnew Hrun) as (HI & _).
  destruct (reach_exits _ _ _ _ _ _ _ _ Hnew Hrun) as (Hlen & Hex).
  pose proof (inv_wg _ HI) as Hwg. unfold exits_counted in Hex.
  split_and!; [done|lia|..].
  all: pose proof (NewWorkerPool_inv _ _ _ _ _ Hnew) as HI0.
  all: assert (exits_once p tr) as [Hnd Hin].
  1,3: refine (run_ind_trace exits_once _ ls _ [] p tr HI0 _ Hrun).
  all: try (intros; by eapply step_exits_once).
  all: try (split; [constructor|by intros ? ?%elem_of_nil]).
  all: done.
Qed.

(** X10: the order of the shutdown.  The queue is closed only when the flag
    is set and the context is done; and none of the three -- flag, context,
    closed queue -- is ever undone. *)
Theorem X10_shutdown_order parentDone numOfWorkers queueSize hook
    (p0 : WorkerPool Func) ls p tr :
  NewWorkerPool parentDone numOfWorkers queueSize hook = Done p0 →
  run ls p0 = Done (p, tr) →
  (taskQueueClosed p = true → isStopped p = true ∧ ctxDone p = true) ∧
  ∀ l p' ev, step l p = Done (p', ev) →
    (isStopped p = true → isStopped p' = true) ∧
    (ctxDone p = true → ctxDone p' = true) ∧
    (taskQueueClosed p = true → taskQueueClosed p' = true).
Proof.
  intros Hnew Hrun.
  destruct (reach_facts _ _ _ _ _ _ _ _ Hnew Hrun) as (HI & _).
  split; [by apply stop_inv_closed|]. intros l p' ev Hs. split_and!.
  - by eapply step_isStopped_mono.
  - by eapply step_ctxDone_mono.
  - by eapply step_closed_mono.
Qed.

(** X11: the pool of [main].  It is built from a configuration that went
    through [MustLoad], on a context that is never cancelled, and [Stop] is
    deferred to the end of [main].  The pool has at least one worker and a
    queue of at least one place.  Until [Stop] is called the flag is false,
    the context is not done and the lock is free, so a [Submit] of the loop
    over the jobs returns without waiting, with [nil] or [ErrQueueFull] and
    never with [ErrPoolStopped]. *)
Theorem X11_main_pool_before_stop cfg h (p0 : WorkerPool Func) ls p tr :
  main_pool cfg h = Done p0 →
  run ls p0 = Done (p, tr) →
  LStop ∉ ls → LCancelParent ∉ ls →
  1 ≤ length (workers p) ∧ 1 ≤ taskQueueCap p ∧
  afterTaskHook p = Some h ∧
  isStopped p = false ∧ ctxDone p = false ∧ mu p = None ∧
  (∀ task err, EvSubmit task err ∈ tr →
     err = None ∨ err = Some ErrQueueFull) ∧
  (∀ task, ∃ err p',
     step (LSubmit task) p = Done (p', [EvSubmit task err]) ∧
     (err = None ∨ err = Some ErrQueueFull)).
Proof.
  unfold main_pool. intros Hnew Hrun Hstop Hcancel.
  destruct (run_without_stop _ _ _ _ Hrun Hstop) as [Hs Hmu].
  pose proof (run_without_cancel _ _ _ _ Hrun Hstop Hcancel) as Hd.
  destruct (run_frame _ _ _ _ Hrun) as (Hcap & Hhook & Hlen).
  destruct (reach_facts _ _ _ _ _ _ _ _ Hnew Hrun) as (HI & _ & _ & _).
  destruct (NewWorkerPool_eq _ _ _ _ _ Hnew) as [Hsz Hp0].
  rewrite Hp0 in Hs, Hd, Hmu, Hcap, Hhook, Hlen.
  simpl in Hs, Hd, Hmu, Hcap, Hhook, Hlen.
  rewrite length_replicate in Hlen.
  assert (1 ≤ NumberOfWorkers (MustLoad_defaults cfg) ∧
          1 ≤ QueueSize (MustLoad_defaults cfg))%Z as [Hn Hq].
  { unfold MustLoad_defaults, DefaultNumberOfWorkers, DefaultQueueSize.
    destruct cfg as [q n]; simpl.
    destruct (Z.leb_spec q 0); simpl; destruct (Z.leb_spec n 0); simpl;
      lia. }
  split_and!; [lia|lia|done..| |].
  - intros task [[| ]|] Hin; auto.
    apply (run_ErrPoolStopped _ _ _ _ _ Hrun) in Hin. congruence.
  - intros task. simpl. rewrite Hmu.
    destruct (Submit_returns task p HI Hmu) as (err & p' & HS & Herr).
    rewrite HS. exists err, p'. split; [done|].
    destruct Herr as [?|[->|?]]; auto.
    unfold Submit in HS. rewrite Hs in HS. by repeat case_match.
Qed.

End more_facts.

(** * package config *)

(** X12: what [MustLoad] returns.  It fails exactly on an empty path.
    Otherwise the path is the one given, the queue size, the number of
    workers and the timeout are at least 1, a field that was positive is
    kept, and one that was not has its default: 100, 10 and 30. *)
Theorem X12_MustLoad_result_valid cfg :
  (config.MustLoad cfg = None ↔ config.Path cfg = "") ∧
  ∀ cfg', config.MustLoad cfg = Some cfg' →
    config.Path cfg' = config.Path cfg ∧ config.Path cfg ≠ "" ∧
    (1 ≤ QueueSize (config.WorkerPool cfg'))%Z ∧
    (1 ≤ NumberOfWorkers (config.WorkerPool cfg'))%Z ∧
    (1 ≤ config.Timeout cfg')%Z ∧
    QueueSize (config.WorkerPool cfg') =
      (if (QueueSize (config.WorkerPool cfg) <=? 0)%Z then 100%Z
       else QueueSize (config.WorkerPool cfg)) ∧
    NumberOfWorkers (config.WorkerPool cfg') =
      (if (NumberOfWorkers (config.WorkerPool cfg) <=? 0)%Z then 10%Z
       else NumberOfWorkers (config.WorkerPool cfg)) ∧
    config.Timeout cfg' =
      (if (config.Timeout cfg <=? 0)%Z then 30%Z else config.Timeout cfg).
Proof.
  unfold config.MustLoad, MustLoad_defaults, DefaultQueueSize,
    DefaultNumberOfWorkers, config.DefaultTimeout.
  destruct cfg as [[q n] t path]; simpl.
  destruct (String.eqb_spec path "") as [->|Hne].
  - split; [done|]. by intros cfg'.
  - split; [done|]. intros cfg' [= <-]; simpl.
    destruct (Z.leb_spec q 0); simpl; destruct (Z.leb_spec n 0); simpl;
      destruct (Z.leb_spec t 0); simpl; split_and!; done || lia.
Qed.

(** X13: a configuration that [MustLoad] returned goes through [MustLoad]
    unchanged. *)
Theorem X13_MustLoad_idempotent cfg cfg' :
  config.MustLoad cfg = Some cfg' → config.MustLoad cfg' = Some cfg'.
Proof.
  unfold config.MustLoad, MustLoad_defaults, DefaultQueueSize,
    DefaultNumberOfWorkers, config.DefaultTimeout.
  destruct cfg as [[q n] t path]; simpl.
  destruct (String.eqb_spec path "") as [->|Hne]; [done|].
  intros [= <-]; simpl. destruct (String.eqb_spec path ""); [done|].
  destruct (Z.leb_spec q 0); simpl; destruct (Z.leb_spec n 0); simpl;
    destruct (Z.leb_spec t 0); simpl;
    repeat match goal with
      | |- context [(?x <=? 0)%Z] => destruct (Z.leb_spec x 0); [lia|]; simpl
      end; done.
Qed.

Lemma X13_MustLoad_idempotent_witness :
  config.MustLoad (config.mkConfig (mkConfig 0 4) (-1) "out") =
    Some (config.mkConfig (mkConfig 100 4) 30 "out") ∧
  config.MustLoad (config.mkConfig (mkConfig 100 4) 30 "out") =
    Some (config.mkConfig (mkConfig 100 4) 30 "out").
Proof.
  split; [reflexivity|].
  apply (X13_MustLoad_idempotent
           (config.mkConfig (mkConfig 0 4) (-1) "out")).
  reflexivity.
Defined.

(** * cmd/main.go *)

Lemma wrap64_small z : (- 2 ^ 63 ≤ z < 2 ^ 63)%Z → wrap64 z = z.
Proof. intros Hz. unfold wrap64. rewrite Z.mod_small; lia. Qed.

Lemma rem2_even i :
  (0 ≤ i)%Z → (Z.rem i 2 =? 0)%Z = Z.even i.
Proof.
  intros Hi. rewrite Z.rem_mod_nonneg by lia. rewrite Zeven_mod. done.
Qed.

Lemma generate_loop_closed fuel i count jobs :
  (1 ≤ i)%Z → (i + Z.of_nat fuel = count + 1)%Z → (count < 2 ^ 63 - 1)%Z →
  generate_loop fuel i count jobs =
    jobs ++
    ((λ i, Job.mk i (if Z.even i then TypeSecond else TypeFirst)) <$>
       seqZ i (Z.of_nat fuel)).
Proof.
  revert i jobs. induction fuel as [|fuel IH]; intros i jobs Hi Hsum Hc.
  - simpl. by rewrite app_nil_r.
  - cbn [generate_loop]. destruct (Z.leb_spec i count); [|lia].
    rewrite wrap64_small by lia. rewrite IH by lia.
    rewrite (seqZ_cons i) by lia. csimpl. rewrite <-(assoc_L (++)).
    rewrite rem2_even by lia. do 4 f_equal. lia.
Qed.

(** X14: [generateDefaultJobs(count)] returns [count] jobs, none if [count]
    is not positive; the job at index [k] has id [k + 1] and is of the
    first type if its id is odd, of the second if it is even. *)
Theorem X14_generateDefaultJobs_closed_form count :
  (count < 2 ^ 63 - 1)%Z →
  length (generateDefaultJobs count) = Z.to_nat count ∧
  ∀ k, k < Z.to_nat count →
    generateDefaultJobs count !! k =
      Some (Job.mk (Z.of_nat k + 1)
              (if Z.odd (Z.of_nat k + 1) then TypeFirst else TypeSecond)).
Proof.
  intros Hc. unfold generateDefaultJobs.
  destruct (Z.le_gt_cases count 0) as [Hle|Hgt].
  { replace (Z.to_nat count) with 0 by lia. split; [done|]. intros; lia. }
  rewrite generate_loop_closed by lia. simpl. split.
  - rewrite length_fmap, length_seqZ. lia.
  - intros k Hk. rewrite list_lookup_fmap, lookup_seqZ_lt by lia. simpl.
    rewrite <-Z.negb_odd, (Z.add_comm 1). by destruct (Z.odd _).
Qed.

Lemma X14_generateDefaultJobs_closed_form_witness :
  (15 < 2 ^ 63 - 1)%Z ∧ length (generateDefaultJobs 15) = 15.
Proof.
  split; [lia|].
  exact (proj1 (X14_generateDefaultJobs_closed_form 15 ltac:(lia))).
Defined.

(** X15: [processJob] never returns an error.  It sleeps 500 ms for a job
    of the second type, one second for a job of an unknown type, and
    [800 + 50 * JobId] ms for a job of the first type whose id is between 0
    and 10^11, where the arithmetic does not wrap; so for these it sleeps
    at least 500 ms. *)
Theorem X15_processJob_never_fails job :
  snd (processJob job) = None ∧
  (Job.JobType job = TypeSecond →
   fst (processJob job) = (500 * Millisecond)%Z) ∧
  (Job.JobType job ≠ TypeFirst → Job.JobType job ≠ TypeSecond →
   fst (processJob job) = Second) ∧
  (Job.JobType job = TypeFirst → (0 ≤ Job.JobId job ≤ 10 ^ 11)%Z →
   fst (processJob job) = ((800 + 50 * Job.JobId job) * Millisecond)%Z ∧
   (500 * Millisecond ≤ fst (processJob job))%Z).
Proof.
  unfold processJob, processingTime, TypeFirst, TypeSecond, Millisecond,
    Second. destruct job as [id ty]; simpl. split_and!.
  - done.
  - intros ->. simpl. by rewrite wrap64_small by lia.
  - intros H1 H2. destruct (Z.eqb_spec ty 1); [done|].
    destruct (Z.eqb_spec ty 2); [done|]. by rewrite wrap64_small by lia.
  - intros -> Hid. simpl.
    rewrite (wrap64_small (id * 50)) by lia.
    rewrite (wrap64_small (800 + id * 50)) by lia.
    rewrite wrap64_small by lia. lia.
Qed.

(** * The further properties on the scenarios *)

Lemma X1_pool_operations_never_panic_witness :
  NewWorkerPool false 1 1 None = Done race_p0 ∧
  run race_sched race_p0 ≠ Panic ∧
  (∀ task, Submit task race_p ≠ Panic) ∧
  Stop race_p ≠ Panic.
Proof.
  split; [reflexivity|].
  destruct (X1_pool_operations_never_panic (platform := linux_amd64)
              false 1 1 None race_p0 race_sched ltac:(reflexivity))
    as [Hrun Hall].
  destruct (Hall race_p race_tr ltac:(reflexivity))
    as (_ & Hsub & _ & Hstop & _).
  split_and!; assumption.
Defined.

Lemma X2_tasks_conserved_witness :
  NewWorkerPool false 1 1 None = Done race_p0 ∧
  run race_sched race_p0 = Done (race_p, race_tr) ∧
  accepted race_tr ≡ₚ
    ran race_tr ++ running (workers race_p) ++ taskQueue race_p.
Proof.
  split_and!; [reflexivity|reflexivity|].
  exact (proj1 (X2_tasks_conserved (platform := linux_amd64) false 1 1 None race_p0 race_sched race_p
                  race_tr ltac:(reflexivity) ltac:(reflexivity))).
Defined.

Lemma X3_queue_is_fifo_witness :
  NewWorkerPool false 1 1 None = Done race_p0 ∧
  run race_sched race_p0 = Done (race_p, race_tr) ∧
  taskQueue race_p `suffix_of` accepted race_tr.
Proof.
  split_and!; [reflexivity|reflexivity|].
  exact (X3_queue_is_fifo (platform := linux_amd64) false 1 1 None race_p0 race_sched race_p race_tr
           ltac:(reflexivity) ltac:(reflexivity)).
Defined.

Lemma X4_single_worker_runs_in_order_witness :
  NewWorkerPool false 1 1 (Some 1) = Done busy_p0 ∧
  run (busy_sched ++ busy_rest) busy_p0 =
    Done (busy_end,
          [EvSubmit 7 None; EvTask 7; EvHook 1; EvExit 0; EvStop None]) ∧
  ran [EvSubmit 7 None; EvTask 7; EvHook 1; EvExit 0; EvStop None]
    `prefix_of`
  accepted [EvSubmit 7 None; EvTask 7; EvHook 1; EvExit 0; EvStop None].
Proof.
  split_and!; [reflexivity|reflexivity|].
  exact (proj2 (X4_single_worker_runs_in_order (platform := linux_amd64) false 1 (Some 1) busy_p0
                  (busy_sched ++ busy_rest) busy_end _ ltac:(reflexivity) ltac:(reflexivity))).
Defined.

Lemma X5_shape_is_fixed_witness :
  NewWorkerPool false 1 1 None = Done race_p0 ∧
  run race_sched race_p0 = Done (race_p, race_tr) ∧
  taskQueueCap race_p = 1 ∧ afterTaskHook race_p = None ∧
  length (workers race_p) = 1.
Proof.
  split_and!; [reflexivity|reflexivity|..];
    apply (X5_shape_is_fixed (platform := linux_amd64) false 1 1 None race_p0 race_sched race_p
             race_tr ltac:(reflexivity) ltac:(reflexivity)).
Defined.


Lemma X7_ErrPoolStopped_only_after_Stop_witness :
  NewWorkerPool false 1 1 (Some 1) = Done busy_p0 ∧
  run [LSubmit 7] busy_p0 = Done (queued_p, [EvSubmit 7 None]) ∧
  (LStop ∉ [@LSubmit nat 7]) ∧
  isStopped queued_p = false.
Proof.
  assert (LStop ∉ [@LSubmit nat 7]) as Hnostop.
  { intros Hin. apply list_elem_of_singleton in Hin. discriminate. }
  split_and!; [reflexivity|reflexivity|exact Hnostop|].
  destruct (X7_ErrPoolStopped_only_after_Stop (platform := linux_amd64) false 1 1 (Some 1) busy_p0
              [LSubmit 7] queued_p [EvSubmit 7 None] ltac:(reflexivity) ltac:(reflexivity))
    as [_ Hrun].
  by destruct (Hrun Hnostop).
Defined.

Lemma X8_queued_task_finds_worker_witness :
  NewWorkerPool false 1 1 (Some 1) = Done busy_p0 ∧
  run [LSubmit 7] busy_p0 = Done (queued_p, [EvSubmit 7 None]) ∧
  ctxDone queued_p = false ∧
  Forall (λ s, s ≠ WParked) (workers queued_p) ∧
  step (LWorker 0 PickDone) queued_p =
    Done (set_worker 0 (WTask 7) (set_taskQueue [] queued_p), []).
Proof.
  split_and!; [reflexivity|reflexivity|reflexivity| |].
  - refine (proj1 (proj2
      (X8_queued_task_finds_worker (platform := linux_amd64) false 1 1
         (Some 1) busy_p0 [LSubmit 7] queued_p [EvSubmit 7 None]
         ltac:(reflexivity) ltac:(reflexivity) ltac:(reflexivity))) _).
    discriminate.
  - exact (proj1 (proj2 (proj2
      (X8_queued_task_finds_worker (platform := linux_amd64) false 1 1
         (Some 1) busy_p0 [LSubmit 7] queued_p [EvSubmit 7 None]
         ltac:(reflexivity) ltac:(reflexivity) ltac:(reflexivity))))
      0 PickDone 7 [] ltac:(reflexivity) ltac:(reflexivity)).
Defined.

Lemma X9_wait_group_counts_workers_witness :
  NewWorkerPool false 1 1 None = Done race_p0 ∧
  run race_sched race_p0 = Done (race_p, race_tr) ∧
  workerWaitGroup race_p = live (workers race_p).
Proof.
  split_and!; [reflexivity|reflexivity|].
  exact (proj1 (X9_wait_group_counts_workers (platform := linux_amd64) false 1 1 None race_p0
                  race_sched race_p race_tr ltac:(reflexivity) ltac:(reflexivity))).
Defined.

Lemma X10_shutdown_order_witness :
  NewWorkerPool false 1 1 None = Done race_p0 ∧
  run race_sched race_p0 = Done (race_p, race_tr) ∧
  (taskQueueClosed race_p = true →
   isStopped race_p = true ∧ ctxDone race_p = true).
Proof.
  split_and!; [reflexivity|reflexivity|].
  exact (proj1 (X10_shutdown_order (platform := linux_amd64) false 1 1 None race_p0 race_sched race_p
                  race_tr ltac:(reflexivity) ltac:(reflexivity))).
Defined.

Lemma X11_main_pool_before_stop_witness :
  main_pool (mkConfig 1 1) 1 = Done busy_p0 ∧
  run [LSubmit 7] busy_p0 = Done (queued_p, [EvSubmit 7 None]) ∧
  (LStop ∉ [@LSubmit nat 7]) ∧ (LCancelParent ∉ [@LSubmit nat 7]) ∧
  isStopped queued_p = false ∧
  ∃ err p', step (LSubmit 8) queued_p = Done (p', [EvSubmit 8 err]) ∧
            (err = None ∨ err = Some ErrQueueFull).
Proof.
  assert (LStop ∉ [@LSubmit nat 7]) as Hnostop.
  { intros Hin. apply list_elem_of_singleton in Hin. discriminate. }
  assert (LCancelParent ∉ [@LSubmit nat 7]) as Hnocancel.
  { intros Hin. apply list_elem_of_singleton in Hin. discriminate. }
  split_and!; [reflexivity|reflexivity|exact Hnostop|exact Hnocancel|..].
  - exact (proj1 (proj2 (proj2 (proj2
      (X11_main_pool_before_stop (platform := linux_amd64) (mkConfig 1 1) 1
         busy_p0 [LSubmit 7] queued_p [EvSubmit 7 None] ltac:(reflexivity)
         ltac:(reflexivity) Hnostop Hnocancel))))).
  - exact (proj2 (proj2 (proj2 (proj2 (proj2 (proj2 (proj2
      (X11_main_pool_before_stop (platform := linux_amd64) (mkConfig 1 1) 1
         busy_p0 [LSubmit 7] queued_p [EvSubmit 7 None] ltac:(reflexivity)
         ltac:(reflexivity) Hnostop Hnocancel))))))) 8).
Defined.

Lemma X12_MustLoad_result_valid_witness :
  config.MustLoad (config.mkConfig (mkConfig 0 4) (-1) "out") =
    Some (config.mkConfig (mkConfig 100 4) 30 "out") ∧
  (1 ≤ QueueSize (mkConfig 100 4))%Z.
Proof.
  split; [reflexivity|].
  destruct (X12_MustLoad_result_valid
              (config.mkConfig (mkConfig 0 4) (-1) "out")) as [_ Hvalid].
  destruct (Hvalid (config.mkConfig (mkConfig 100 4) 30 "out") ltac:(reflexivity))
    as (_ & _ & Hq & _).
  exact Hq.
Defined.

Lemma X15_processJob_never_fails_witness :
  Job.JobType (Job.mk 3 TypeFirst) = TypeFirst ∧ (0 ≤ 3 ≤ 10 ^ 11)%Z ∧
  fst (processJob (Job.mk 3 TypeFirst)) = 950000000%Z.
Proof.
  split_and!; [reflexivity|lia|lia|].
  destruct (X15_processJob_never_fails (Job.mk 3 TypeFirst)) as (_ & _ & _ & Hfirst).
  destruct (Hfirst ltac:(reflexivity)) as [Htime _]; [simpl; lia|]. exact Htime.
Defined.
